(** * Resolved dependencies of SLSA v2alpha2 provenance

    A shallow embedding of
    [pkg/chains/formats/slsa/v2alpha2/internal/resolved_dependencies/resolved_dependencies.go]
    and the properties of its functions [convertMaterialsToResolvedDependencies],
    [removeDuplicateResolvedDependencies], [fromPipelineTask], [TaskRun] and
    [PipelineRun].

    The package compares descriptors by the bytes that [json.Marshal]
    gives for them; [encoding/json] and [unicode/utf8] of the Go standard
    library are embedded as far as the marshalling of a descriptor goes.

    Conventions of the embedding:
    - a Go [string] is a sequence of bytes: Rocq's [string];
    - a Go [map[string]string] is a finite map without any iteration order:
      stdpp's [gmap string string] (a nil map and an empty map both have
      length 0 and are both the empty map here); the order in which ranging
      over it yields its entries, which Go leaves open, is an argument of
      the serializer ([json.encodeRanged], [json.MarshalRanged]);
    - a Go slice is a [list]; the nil slice is [[]];
    - a Go result pair [(T, error)] is a pair [T * option error], the nil
      error being [None]. *)

From Stdlib Require Import NArith Strings.String Strings.Ascii.
From stdpp Require Import base option list gmap strings sorting.

Open Scope string_scope.
Open Scope list_scope.

(** Go's [error] values, identified by their message. *)
Definition error : Type := string.

(** A digest set ([common.DigestSet]) maps an algorithm name to a digest. *)
Abbreviation DigestSet := (gmap string string).

(** ** in-toto: [slsa_provenance/common] and [slsa_provenance/v1] *)
Module common.

Record ProvenanceMaterial : Type := {
  URI : string;
  Digest : DigestSet
}.

End common.

Module v1.

(** The fields of a resource descriptor that this package sets or reads;
    the others (download location, media type, content, annotations) keep
    their zero value throughout and are left out of serialization by
    [omitempty]. *)
Record ResourceDescriptor : Type := {
  Name : string;
  URI : string;
  Digest : DigestSet
}.

End v1.

(** ** Strings as byte sequences *)

(** The bytes of a string, as numbers. *)
Definition bytes (s : string) : list N := N_of_ascii <$> list_ascii_of_string s.

(** The slices [s[:n]] and [s[n:]] of a string, for [n] up to its length. *)
Fixpoint sliceTo (n : nat) (s : string) : string :=
  match n, s with
  | S n', String b rest => String b (sliceTo n' rest)
  | _, _ => ""
  end.

Fixpoint sliceFrom (n : nat) (s : string) : string :=
  match n, s with
  | S n', String _ rest => sliceFrom n' rest
  | _, _ => s
  end.

(** ** unicode/utf8 *)
Module utf8.

Definition RuneError : N := 0xFFFD.
Definition RuneSelf : N := 0x80.
Definition UTFMax : nat := 4.

(** The lowest and highest continuation byte. *)
Definition locb : N := 0x80.
Definition hicb : N := 0xBF.

(** One entry of the table [first]: [as] (an ASCII byte), [xx] (a byte that
    starts no encoding), or the size of the encoding together with the
    range accepted for its second byte ([acceptRanges]). *)
Inductive firstInfo : Type :=
| ASCII
| Invalid
| Lead (sz : nat) (lo hi : N).

Definition first (b : N) : firstInfo :=
  if (b <? 0x80)%N then ASCII
  else if (b <? 0xC2)%N then Invalid
  else if (b <? 0xE0)%N then Lead 2 locb hicb
  else if (b =? 0xE0)%N then Lead 3 0xA0 hicb
  else if (b <? 0xED)%N then Lead 3 locb hicb
  else if (b =? 0xED)%N then Lead 3 locb 0x9F
  else if (b <? 0xF0)%N then Lead 3 locb hicb
  else if (b =? 0xF0)%N then Lead 4 0x90 hicb
  else if (b <? 0xF4)%N then Lead 4 locb hicb
  else if (b =? 0xF4)%N then Lead 4 locb 0x8F
  else Invalid.

Definition mask2 : N := 0x1F.
Definition mask3 : N := 0x0F.
Definition mask4 : N := 0x07.
Definition maskx : N := 0x3F.

Definition outside (lo hi b : N) : bool := ((b <? lo) || (hi <? b))%N.

(** [DecodeRuneInString]: the first rune of [s] and its width in bytes;
    [(RuneError, 1)] for a byte sequence that is not valid UTF-8. *)
Definition DecodeRuneInString (s : list N) : N * nat :=
  match s with
  | [] => (RuneError, 0)
  | s0 :: t0 =>
      match first s0 with
      | ASCII => (s0, 1)
      | Invalid => (RuneError, 1)
      | Lead sz lo hi =>
          if (List.length s <? sz)%nat then (RuneError, 1) else
          match t0 with
          | [] => (RuneError, 1)
          | s1 :: t1 =>
              if outside lo hi s1 then (RuneError, 1)
              else if (sz <=? 2)%nat then
                (N.lor (N.shiftl (N.land s0 mask2) 6) (N.land s1 maskx), 2)
              else
              match t1 with
              | [] => (RuneError, 1)
              | s2 :: t2 =>
                  if outside locb hicb s2 then (RuneError, 1)
                  else if (sz <=? 3)%nat then
                    (N.lor (N.lor (N.shiftl (N.land s0 mask3) 12)
                                  (N.shiftl (N.land s1 maskx) 6))
                           (N.land s2 maskx), 3)
                  else
                  match t2 with
                  | [] => (RuneError, 1)
                  | s3 :: _ =>
                      if outside locb hicb s3 then (RuneError, 1)
                      else
                        (N.lor (N.lor (N.lor (N.shiftl (N.land s0 mask4) 18)
                                             (N.shiftl (N.land s1 maskx) 12))
                                      (N.shiftl (N.land s2 maskx) 6))
                               (N.land s3 maskx), 4)
                  end
              end
          end
      end
  end.

(** [ValidString] reports whether [s] consists entirely of valid UTF-8
    encoded runes: no byte of it is one on which [DecodeRuneInString] gives
    [RuneError] with width 1. The fuel is the number of rounds, of which
    [length s] are enough. *)
Fixpoint validLoop (fuel : nat) (s : string) : bool :=
  match fuel, s with
  | _, "" => true
  | S fuel', String b rest =>
      if (N_of_ascii b <? RuneSelf)%N then validLoop fuel' rest
      else
        let '(_, size) := DecodeRuneInString (bytes (sliceTo UTFMax s)) in
        if (size =? 1)%nat then false else validLoop fuel' (sliceFrom size s)
  | O, String _ _ => false
  end.

Definition ValidString (s : string) : bool := validLoop (String.length s) s.

(** The width of the encoding that starts with the byte [b]. *)
Definition leadSize (b : N) : nat :=
  match first b with
  | Lead sz _ _ => sz
  | _ => 1
  end.

(** The runes U+2028 and U+2029, line and paragraph separator. *)
Definition isSep (c : N) : bool := ((c =? 0x2028) || (c =? 0x2029))%N.

End utf8.

(** ** encoding/json, as far as [json.Marshal] of a resource descriptor goes *)
Module json.

Definition hex : string := "0123456789abcdef".

Definition hexDigit (n : N) : ascii :=
  default "0"%char (String.get (N.to_nat n) hex).

Definition quote : ascii := "034"%char.
Definition backslash : ascii := "092"%char.

(** [htmlSafeSet]: the ASCII bytes written without escaping: all from the
    space to DEL except the double quote, the backslash and the three
    characters escaped for HTML. *)
Definition htmlSafeSet (b : N) : bool :=
  ((0x20 <=? b) && (b <=? 0x7F)
   && negb ((b =? 0x22) || (b =? 0x26) || (b =? 0x3C) || (b =? 0x3E) || (b =? 0x5C)))%N.

(** The escape written for an ASCII byte outside [htmlSafeSet]. (Backspace
    and form feed have their short escapes since Go 1.22 and were written
    with four hexadecimal digits before; nothing below depends on which.) *)
Definition escapeByte (b : N) : string :=
  String backslash
    (if ((b =? 0x5C) || (b =? 0x22))%N then String (ascii_of_N b) ""
     else if (b =? 0x08)%N then "b"
     else if (b =? 0x0C)%N then "f"
     else if (b =? 0x0A)%N then "n"
     else if (b =? 0x0D)%N then "r"
     else if (b =? 0x09)%N then "t"
     else "u00" +:+ String (hexDigit (N.shiftr b 4))
                      (String (hexDigit (N.land b 0xF)) "")).

(** The loop of [appendString] over [src[i:]], with HTML escaping on as in
    [json.Marshal]. Every round consumes at least one byte, so a fuel of
    [length src] rounds reaches the end of the string. *)
Fixpoint appendStringLoop (fuel : nat) (src : string) : string :=
  match fuel, src with
  | S fuel', String b rest =>
      let n := N_of_ascii b in
      if (n <? utf8.RuneSelf)%N then
        if htmlSafeSet n then String b (appendStringLoop fuel' rest)
        else escapeByte n +:+ appendStringLoop fuel' rest
      else
        let '(c, size) := utf8.DecodeRuneInString (bytes (sliceTo utf8.UTFMax src)) in
        if ((c =? utf8.RuneError)%N && (size =? 1)%nat)%bool then
          String backslash "ufffd" +:+ appendStringLoop fuel' rest
        else if utf8.isSep c then
          String backslash "u202" +:+ String (hexDigit (N.land c 0xF)) ""
            +:+ appendStringLoop fuel' (sliceFrom size src)
        else
          sliceTo size src +:+ appendStringLoop fuel' (sliceFrom size src)
  | _, _ => ""
  end.

(** [appendString]: a Go string as a JSON string literal. *)
Definition appendString (src : string) : string :=
  String quote (appendStringLoop (String.length src) src) +:+ String quote "".

(** Map entries are written in the order of their keys ([strings.Compare],
    bytewise). *)
Definition keyLe (p q : string * string) : Prop := String.leb p.1 q.1 = true.

#[global] Instance keyLe_dec (p q : string * string) : Decision (keyLe p q) :=
  decide (String.leb p.1 q.1 = true).

Definition sortedEntries (m : gmap string string) : list (string * string) :=
  merge_sort keyLe (map_to_list m).

Definition encodeEntry (kv : string * string) : string :=
  appendString kv.1 +:+ ":" +:+ appendString kv.2.

(** [mapEncoder.encode]: the entries that ranging over the map yields, in
    an order that Go leaves open, are sorted by key and written in that
    order. *)
Definition encodeRanged (ranged : list (string * string)) : string :=
  "{" +:+ String.concat "," (encodeEntry <$> merge_sort keyLe ranged) +:+ "}".

(** A [map[string]string] as a JSON object, ranged over in the order of
    [map_to_list]. *)
Definition encodeMap (m : gmap string string) : string :=
  encodeRanged (map_to_list m).

(** A struct as a JSON object, from its fields left after [omitempty]. *)
Definition encodeStruct (fields : list (string * string)) : string :=
  "{" +:+ String.concat "," ((λ f, appendString f.1 +:+ ":" +:+ f.2) <$> fields) +:+ "}".

(** A field tagged [omitempty] is left out when its value is empty. *)
Definition omitempty (name : string) (empty : bool) (value : string)
  : list (string * string) :=
  if empty then [] else [(name, value)].

(** [json.Marshal] of a resource descriptor when ranging over its digest
    yields the entries [ranged]: the fields in the order of their
    declaration. Strings and string maps always serialize, so the error is
    nil. *)
Definition MarshalRanged (ranged : list (string * string)) (v : v1.ResourceDescriptor)
  : string * option error :=
  (encodeStruct
     (omitempty "uri" (String.length (v1.URI v) =? 0)%nat (appendString (v1.URI v))
      ++ omitempty "digest" (size (v1.Digest v) =? 0)%nat (encodeRanged ranged)
      ++ omitempty "name" (String.length (v1.Name v) =? 0)%nat (appendString (v1.Name v))),
   None).

(** [json.Marshal] of a resource descriptor, its digest ranged over in the
    order of [map_to_list]. *)
Definition Marshal (v : v1.ResourceDescriptor) : string * option error :=
  MarshalRanged (map_to_list (v1.Digest v)) v.

End json.

(** ** Tekton objects, as far as this package reads them *)

(** The types the package only hands on to its collaborators: the states of
    steps and sidecars, the time stamp of a completion, the context and the
    SLSA configuration. *)
Class External : Type := {
  StepState : Type;
  SidecarState : Type;
  MetaTime : Type;
  GoContext : Type;
  SlsaConfig : Type
}.

Section objects.
Context `{External}.

(** [RefSource]: where a remote task or pipeline definition came from. *)
Record RefSource : Type := {
  ref_URI : string;
  ref_Digest : DigestSet
}.

Record Provenance : Type := {
  prov_RefSource : option RefSource
}.

Record TaskRunStatus : Type := {
  trs_Provenance : option Provenance;
  trs_Steps : list StepState;
  trs_Sidecars : list SidecarState;
  trs_CompletionTime : option MetaTime
}.

Record TaskRunObject : Type := {
  tro_Status : TaskRunStatus
}.

Record PipelineTask : Type := {
  pt_Name : string
}.

Record PipelineSpec : Type := {
  ps_Tasks : list PipelineTask;
  ps_Finally : list PipelineTask
}.

Record PipelineRunStatus : Type := {
  prs_Provenance : option Provenance;
  prs_PipelineSpec : option PipelineSpec
}.

(** A pipeline run object with its method [GetTaskRunFromTask], which
    finds the task run of a pipeline task by the name of the task, as a
    field. *)
Record PipelineRunObject : Type := {
  pro_Status : PipelineRunStatus;
  pro_GetTaskRunFromTask : string → option TaskRunObject
}.

(** The functions of the package [material] that this package calls. *)
Class Material : Type := {
  FromStepImages :
    list StepState → list common.ProvenanceMaterial * option error;
  FromSidecarImages :
    list SidecarState → list common.ProvenanceMaterial * option error;
  FromTaskParamsAndResults :
    GoContext → TaskRunObject → list common.ProvenanceMaterial;
  FromTaskResources :
    GoContext → TaskRunObject → list common.ProvenanceMaterial;
  FromPipelineParamsAndResults :
    GoContext → PipelineRunObject → SlsaConfig → list common.ProvenanceMaterial
}.

End objects.

(** ** The package [resolveddependencies] *)

(** [pipelineConfigName] is the name of the resolved dependency of the pipelineRef. *)
Definition pipelineConfigName : string := "pipeline".
(** [taskConfigName] is the name of the resolved dependency of the top level taskRef. *)
Definition taskConfigName : string := "task".
(** [pipelineTaskConfigName] is the name of the resolved dependency of the pipeline task. *)
Definition pipelineTaskConfigName : string := "pipelineTask".
(** [inputResultName] is the name of the resolved dependency generated from
    type hinted parameters or results. *)
Definition inputResultName : string := "inputs/result".
(** [pipelineResourceName] is the name of the resolved dependency of pipeline resource. *)
Definition pipelineResourceName : string := "pipelineResource".

(** [convertMaterialsToResolvedDependencies] converts SLSA v0.2 materials to
    resolved dependencies. *)
Definition convertMaterialsToResolvedDependencies
    (mats : list common.ProvenanceMaterial) (name : string)
  : list v1.ResourceDescriptor :=
  (λ mat, {| v1.Name := if (0 <? String.length name)%nat then name else "";
             v1.URI := common.URI mat;
             v1.Digest := common.Digest mat |}) <$> mats.

(** The test of line 167: the name is that of the top level task or pipeline
    config. *)
Definition isConfigName (name : string) : bool :=
  (name =? taskConfigName)%string || (name =? pipelineConfigName)%string.

(** The loop of [removeDuplicateResolvedDependencies] over what is left of
    the input, with the output slice and the [seen] map built so far. *)
Fixpoint removeDuplicateLoop (resolvedDependencies : list v1.ResourceDescriptor)
    (out : list v1.ResourceDescriptor) (seen : gmap string bool)
  : list v1.ResourceDescriptor * option error :=
  match resolvedDependencies with
  | [] => (out, None)
  | resolvedDependency :: rest =>
      let rDep := {| v1.Name := "";
                     v1.URI := v1.URI resolvedDependency;
                     v1.Digest := v1.Digest resolvedDependency |} in
      let '(rd, err) := json.Marshal rDep in
      match err with
      | Some e => ([], Some e)
      | None =>
          if default false (seen !! rd)
             && negb (isConfigName (v1.Name resolvedDependency))
          then removeDuplicateLoop rest out seen
          else removeDuplicateLoop rest (out ++ [resolvedDependency]) (<[rd := true]> seen)
      end
  end.

(** [removeDuplicateResolvedDependencies] removes duplicate resolved
    dependencies from the slice of resolved dependencies. Original order of
    resolved dependencies is retained. *)
Definition removeDuplicateResolvedDependencies
    (resolvedDependencies : list v1.ResourceDescriptor)
  : list v1.ResourceDescriptor * option error :=
  removeDuplicateLoop resolvedDependencies [] ∅.

Section resolvers.
Context `{External} `{!Material}.

(** The descriptor of a top level config, when the status records one. *)
Definition configDescriptor (name : string) (p : option Provenance)
  : list v1.ResourceDescriptor :=
  match p with
  | Some p =>
      match prov_RefSource p with
      | Some r => [ {| v1.Name := name; v1.URI := ref_URI r; v1.Digest := ref_Digest r |} ]
      | None => []
      end
  | None => []
  end.

(** [TaskRun] constructs the [predicate.resolvedDependencies] section by
    collecting all the artifacts that influence a taskrun such as source
    code repo and step and sidecar base images. *)
Definition TaskRun (ctx : GoContext) (tro : TaskRunObject)
  : list v1.ResourceDescriptor * option error :=
  let resolvedDependencies : list v1.ResourceDescriptor := [] in
  (* add top level task config *)
  let resolvedDependencies :=
    resolvedDependencies ++ configDescriptor taskConfigName (trs_Provenance (tro_Status tro)) in
  let mats : list common.ProvenanceMaterial := [] in
  (* add step and sidecar images *)
  let '(stepMaterials, err) := FromStepImages (trs_Steps (tro_Status tro)) in
  let mats := mats ++ stepMaterials in
  match err with
  | Some e => ([], Some e)
  | None =>
      let '(sidecarMaterials, err) := FromSidecarImages (trs_Sidecars (tro_Status tro)) in
      match err with
      | Some e => ([], Some e)
      | None =>
          let mats := mats ++ sidecarMaterials in
          let resolvedDependencies :=
            resolvedDependencies ++ convertMaterialsToResolvedDependencies mats "" in
          let mats := FromTaskParamsAndResults ctx tro in
          let resolvedDependencies :=
            resolvedDependencies
              ++ convertMaterialsToResolvedDependencies mats inputResultName in
          (* add task resources *)
          let mats := FromTaskResources ctx tro in
          let resolvedDependencies :=
            resolvedDependencies
              ++ convertMaterialsToResolvedDependencies mats pipelineResourceName in
          (* remove duplicate resolved dependencies *)
          let '(resolvedDependencies, err) :=
            removeDuplicateResolvedDependencies resolvedDependencies in
          match err with
          | Some e => ([], Some e)
          | None => (resolvedDependencies, None)
          end
      end
  end.

(** The line that [fromPipelineTask] logs for a task without a completed
    task run. *)
Definition notFoundMessage (name : string) : string :=
  "taskrun status not found for task " +:+ name.

(** The loop of [fromPipelineTask] over what is left of the pipeline
    tasks, with the resolved dependencies and the log lines so far. *)
Fixpoint fromPipelineTaskLoop (pro : PipelineRunObject)
    (pipelineTasks : list PipelineTask)
    (resolvedDependencies : list v1.ResourceDescriptor) (log : list string)
  : (list v1.ResourceDescriptor * option error) * list string :=
  match pipelineTasks with
  | [] => ((resolvedDependencies, None), log)
  | t :: rest =>
      let skip :=
        fromPipelineTaskLoop pro rest resolvedDependencies
          (log ++ [notFoundMessage (pt_Name t)]) in
      match pro_GetTaskRunFromTask pro (pt_Name t) with
      | None => skip
      | Some tr =>
          match trs_CompletionTime (tro_Status tr) with
          | None => skip
          | Some _ =>
              (* add remote task configsource information in materials *)
              let resolvedDependencies :=
                resolvedDependencies
                  ++ configDescriptor pipelineTaskConfigName
                       (trs_Provenance (tro_Status tr)) in
              let mats : list common.ProvenanceMaterial := [] in
              (* add step images *)
              let '(stepMaterials, err) := FromStepImages (trs_Steps (tro_Status tr)) in
              match err with
              | Some e => (([], Some e), log)
              | None =>
                  let mats := mats ++ stepMaterials in
                  (* add sidecar images *)
                  let '(sidecarMaterials, err) :=
                    FromSidecarImages (trs_Sidecars (tro_Status tr)) in
                  match err with
                  | Some e => (([], Some e), log)
                  | None =>
                      let mats := mats ++ sidecarMaterials in
                      (* convert materials to resolved dependencies *)
                      fromPipelineTaskLoop pro rest
                        (resolvedDependencies
                           ++ convertMaterialsToResolvedDependencies mats "")
                        log
                  end
              end
          end
      end
  end.

(** [fromPipelineTask] adds the resolved dependencies from pipeline tasks
    such as pipeline task uri/digest for remote pipeline tasks and step and
    sidecar images. *)
Definition fromPipelineTask (pro : PipelineRunObject)
  : (list v1.ResourceDescriptor * option error) * list string :=
  let pSpec := prs_PipelineSpec (pro_Status pro) in
  let resolvedDependencies : list v1.ResourceDescriptor := [] in
  match pSpec with
  | Some pSpec =>
      let pipelineTasks := ps_Tasks pSpec ++ ps_Finally pSpec in
      fromPipelineTaskLoop pro pipelineTasks resolvedDependencies []
  | None => ((resolvedDependencies, None), [])
  end.

(** [PipelineRun] constructs the [predicate.resolvedDependencies] section
    by collecting all the artifacts that influence a pipeline run such as
    source code repo and step and sidecar base images. Next to the result
    pair stand the lines written to the logger. *)
Definition PipelineRun (ctx : GoContext) (pro : PipelineRunObject)
    (slsaconfig : SlsaConfig)
  : (list v1.ResourceDescriptor * option error) * list string :=
  let resolvedDependencies : list v1.ResourceDescriptor := [] in
  (* add pipeline config to resolved dependencies *)
  let resolvedDependencies :=
    resolvedDependencies
      ++ configDescriptor pipelineConfigName (prs_Provenance (pro_Status pro)) in
  (* add resolved dependencies from pipeline tasks *)
  let '((rds, err), log) := fromPipelineTask pro in
  match err with
  | Some e => (([], Some e), log)
  | None =>
      let resolvedDependencies := resolvedDependencies ++ rds in
      (* add resolved dependencies from pipeline results *)
      let mats := FromPipelineParamsAndResults ctx pro slsaconfig in
      let resolvedDependencies :=
        resolvedDependencies
          ++ convertMaterialsToResolvedDependencies mats inputResultName in
      (* remove duplicate resolved dependencies *)
      let '(resolvedDependencies, err) :=
        removeDuplicateResolvedDependencies resolvedDependencies in
      match err with
      | Some e => (([], Some e), log)
      | None => ((resolvedDependencies, None), log)
      end
  end.

(** The task run of a pipeline task, when it exists and has completed:
    the test of line 187. *)
Definition executedTaskRun (pro : PipelineRunObject) (t : PipelineTask)
  : option TaskRunObject :=
  match pro_GetTaskRunFromTask pro (pt_Name t) with
  | Some tr =>
      match trs_CompletionTime (tro_Status tr) with
      | Some _ => Some tr
      | None => None
      end
  | None => None
  end.

(** The error that the extraction of images gives on a task run: that of
    the step images or, when there is none, that of the sidecar images. *)
Definition imagesError (tr : TaskRunObject) : option error :=
  match (FromStepImages (trs_Steps (tro_Status tr))).2 with
  | Some e => Some e
  | None => (FromSidecarImages (trs_Sidecars (tro_Status tr))).2
  end.

(** The error of a stage: that of its executed task run, if any. *)
Definition stageError (pro : PipelineRunObject) (t : PipelineTask) : option error :=
  executedTaskRun pro t ≫= imagesError.

(** The pipeline run object with other pipeline tasks declared, and the
    same task runs. *)
Definition withPipelineTasks (pro : PipelineRunObject) (ts : list PipelineTask)
  : PipelineRunObject :=
  {| pro_Status :=
       {| prs_Provenance := prs_Provenance (pro_Status pro);
          prs_PipelineSpec := Some {| ps_Tasks := ts; ps_Finally := [] |} |};
     pro_GetTaskRunFromTask := pro_GetTaskRunFromTask pro |}.

End resolvers.

(** ** The loop of the deduplication, entry by entry *)

(** The identity key of a descriptor: the bytes that line 157 marshals from
    its copy with only the URI and the digest. *)
Definition identityKey (rd : v1.ResourceDescriptor) : string :=
  (json.Marshal {| v1.Name := ""; v1.URI := v1.URI rd; v1.Digest := v1.Digest rd |}).1.

(** [seen[k]]: reading a Go map at a missing key gives the zero value. *)
Definition isSeen (seen : gmap string bool) (k : string) : bool :=
  default false (seen !! k).

(** The entry takes the [continue] of line 168. *)
Definition skips (seen : gmap string bool) (rd : v1.ResourceDescriptor) : bool :=
  isSeen seen (identityKey rd) && negb (isConfigName (v1.Name rd)).

(** What the loop appends to [out] from the entries of [l], started with [seen]. *)
Fixpoint emitted (seen : gmap string bool) (l : list v1.ResourceDescriptor)
  : list v1.ResourceDescriptor :=
  match l with
  | [] => []
  | rd :: rest =>
      if skips seen rd then emitted seen rest
      else rd :: emitted (<[identityKey rd := true]> seen) rest
  end.

(** The [seen] map after the loop has gone through [l]. *)
Fixpoint seenAfter (seen : gmap string bool) (l : list v1.ResourceDescriptor)
  : gmap string bool :=
  match l with
  | [] => seen
  | rd :: rest =>
      if skips seen rd then seenAfter seen rest
      else seenAfter (<[identityKey rd := true]> seen) rest
  end.

(** A digest set filled by the assignments [m[k] = v] of [kvs], in order. *)
Definition digestOfInserts (kvs : list (string * string)) : DigestSet :=
  foldl (λ m kv, <[kv.1 := kv.2]> m) ∅ kvs.

(** ** Valid UTF-8 and the reading of a JSON string *)

(** A digest entry, and a descriptor, all of whose strings are valid UTF-8. *)
Definition validEntry (kv : string * string) : Prop :=
  utf8.ValidString kv.1 = true ∧ utf8.ValidString kv.2 = true.

Definition validDescriptor (rd : v1.ResourceDescriptor) : Prop :=
  utf8.ValidString (v1.URI rd) = true
  ∧ map_Forall (λ k v, validEntry (k, v)) (v1.Digest rd).

(** The numbers from [lo] to [hi]. *)
Definition rangeN (lo hi : N) : list N :=
  N.of_nat <$> seq (N.to_nat lo) (S (N.to_nat hi) - N.to_nat lo).

(** The runes that [DecodeRuneInString] computes from two and three bytes,
    and the high part of the one it computes from four. *)
Definition rune2 (s0 s1 : N) : N :=
  N.lor (N.shiftl (N.land s0 utf8.mask2) 6) (N.land s1 utf8.maskx).

Definition rune3 (s0 s1 s2 : N) : N :=
  N.lor (N.lor (N.shiftl (N.land s0 utf8.mask3) 12) (N.shiftl (N.land s1 utf8.maskx) 6))
        (N.land s2 utf8.maskx).

Definition rune4hi (s0 s1 : N) : N :=
  N.lor (N.shiftl (N.land s0 utf8.mask4) 18) (N.shiftl (N.land s1 utf8.maskx) 12).

(** No encoding of two bytes gives a separator. *)
Definition check2 : bool :=
  forallb (λ s0, forallb (λ s1, negb (utf8.isSep (rune2 s0 s1))) (rangeN 0x80 0xBF))
          (rangeN 0xC2 0xDF).

(** The encodings of three bytes that give a separator are E2 80 A8 and
    E2 80 A9. *)
Definition check3 : bool :=
  forallb (λ s0, forallb (λ s1, forallb (λ s2,
     let c := rune3 s0 s1 s2 in
     negb (utf8.isSep c)
     || ((s0 =? 0xE2) && (s1 =? 0x80) && (s2 =? 0xA8 + (c - 0x2028)))%N)
     (rangeN 0x80 0xBF)) (rangeN 0x80 0xBF)) (rangeN 0xE0 0xEF).

(** An encoding of four bytes gives a rune of at least 17 bits. *)
Definition check4 : bool :=
  forallb (λ s0, forallb (λ s1,
     ((s0 =? 0xF0) && (s1 <? 0x90))%N || (16 <=? N.log2 (rune4hi s0 s1))%N)
     (rangeN 0x80 0xBF)) (rangeN 0xF0 0xF4).

(** The encoding of the separator U+2020+d, and its escape. *)
Definition sepBytes (d : N) : string :=
  String (ascii_of_N 0xE2) (String (ascii_of_N 0x80) (String (ascii_of_N (0xA0 + d)) "")).

Definition sepEscape (d : N) : string :=
  String json.backslash "u202" +:+ String (json.hexDigit d) "".

(** One round of the loop of [appendString] on a valid string: the bytes it
    consumes and the bytes it writes. *)
Inductive runePair : string → string → Prop :=
| rp_safe b :
    (N_of_ascii b < 0x80)%N → json.htmlSafeSet (N_of_ascii b) = true →
    runePair (String b "") (String b "")
| rp_esc b :
    (N_of_ascii b < 0x80)%N → json.htmlSafeSet (N_of_ascii b) = false →
    runePair (String b "") (json.escapeByte (N_of_ascii b))
| rp_sep d :
    d = 8%N ∨ d = 9%N → runePair (sepBytes d) (sepEscape d)
| rp_raw b r :
    (0x80 ≤ N_of_ascii b)%N →
    String.length (String b r) = utf8.leadSize (N_of_ascii b) →
    runePair (String b r) (String b r).

(** A string and what the loop writes for it, round after round. *)
Inductive encodes : string → string → Prop :=
| enc_nil : encodes "" ""
| enc_cons src enc s e :
    runePair src enc → encodes s e → encodes (src +:+ s) (enc +:+ e).

(** The value of a hexadecimal digit. *)
Definition hexVal (a : ascii) : N :=
  let n := N_of_ascii a in
  if ((0x30 <=? n) && (n <=? 0x39))%N then n - 0x30
  else if ((0x61 <=? n) && (n <=? 0x66))%N then n - 0x57
  else 0.

(** The byte or rune that an escape stands for, read from the front of a
    string. *)
Definition unescape (e : string) : option N :=
  match e with
  | String _ (String c1 rest) =>
      let n := N_of_ascii c1 in
      if (n =? 0x75)%N then
        match rest with
        | String h0 (String h1 (String h2 (String h3 _))) =>
            Some (((hexVal h0 * 16 + hexVal h1) * 16 + hexVal h2) * 16 + hexVal h3)%N
        | _ => None
        end
      else if (n =? 0x62)%N then Some 0x08%N
      else if (n =? 0x66)%N then Some 0x0C%N
      else if (n =? 0x6E)%N then Some 0x0A%N
      else if (n =? 0x72)%N then Some 0x0D%N
      else if (n =? 0x74)%N then Some 0x09%N
      else Some n
  | _ => None
  end.

(** ** Concrete descriptors and runs *)
Module examples.

Definition sha256 (d : string) : DigestSet := {[ "sha256" := d ]}.

Definition taskAX : v1.ResourceDescriptor :=
  {| v1.Name := "task"; v1.URI := "a"; v1.Digest := sha256 "x" |}.
Definition plainAX : v1.ResourceDescriptor :=
  {| v1.Name := ""; v1.URI := "a"; v1.Digest := sha256 "x" |}.
Definition pipelineAX : v1.ResourceDescriptor :=
  {| v1.Name := "pipeline"; v1.URI := "a"; v1.Digest := sha256 "x" |}.
Definition plainBY : v1.ResourceDescriptor :=
  {| v1.Name := ""; v1.URI := "b"; v1.Digest := sha256 "y" |}.

(** Two descriptors whose URIs are the single bytes 0xFF and 0xFE, neither
    of which is valid UTF-8. *)
Definition rawFF : v1.ResourceDescriptor :=
  {| v1.Name := ""; v1.URI := String (ascii_of_N 0xFF) ""; v1.Digest := ∅ |}.
Definition rawFE : v1.ResourceDescriptor :=
  {| v1.Name := ""; v1.URI := String (ascii_of_N 0xFE) ""; v1.Digest := ∅ |}.

(** An instance of the collaborators: a step or a sidecar state is the
    material of its image, or nothing when the image reference is
    malformed; the context carries the materials of the inputs. *)
#[local] Instance external : External := {|
  StepState := option common.ProvenanceMaterial;
  SidecarState := option common.ProvenanceMaterial;
  MetaTime := nat;
  GoContext := list common.ProvenanceMaterial;
  SlsaConfig := unit
|}.

Fixpoint fromImages (what : string) (states : list (option common.ProvenanceMaterial))
  : list common.ProvenanceMaterial * option error :=
  match states with
  | [] => ([], None)
  | None :: _ => ([], Some ("malformed image of a " +:+ what))
  | Some m :: rest =>
      match fromImages what rest with
      | (ms, None) => (m :: ms, None)
      | (_, Some e) => ([], Some e)
      end
  end.

#[local] Instance material : Material := {|
  FromStepImages := fromImages "step";
  FromSidecarImages := fromImages "sidecar";
  FromTaskParamsAndResults := λ ctx _, ctx;
  FromTaskResources := λ _ _, [];
  FromPipelineParamsAndResults := λ ctx _ _, ctx
|}.

Definition gitRepo : RefSource :=
  {| ref_URI := "git.example/repo"; ref_Digest := {[ "sha1" := "abc" ]} |}.
Definition regImg : common.ProvenanceMaterial :=
  {| common.URI := "reg/img"; common.Digest := sha256 "d1" |}.
Definition paramFoo : common.ProvenanceMaterial :=
  {| common.URI := "param/foo"; common.Digest := sha256 "d2" |}.

(** A task run with the given step and sidecar states. *)
Definition taskRun (ref : option RefSource) (steps sidecars : list StepState)
    (completed : bool) : TaskRunObject :=
  {| tro_Status :=
       {| trs_Provenance := Some {| prov_RefSource := ref |};
          trs_Steps := steps;
          trs_Sidecars := sidecars;
          trs_CompletionTime := if completed then Some 0 else None |} |}.

(** A pipeline run with the stages [A] and [B] and the finally stage [C];
    the task run of [A] completed, that of [B] is missing, that of [C]
    did not complete. *)
Definition pipelineRun (spec : bool) (stepsA : list StepState) : PipelineRunObject :=
  {| pro_Status :=
       {| prs_Provenance := Some {| prov_RefSource := Some gitRepo |};
          prs_PipelineSpec :=
            if spec
            then Some {| ps_Tasks := [ {| pt_Name := "A" |}; {| pt_Name := "B" |} ];
                         ps_Finally := [ {| pt_Name := "C" |} ] |}
            else None |};
     pro_GetTaskRunFromTask := λ name,
       if (name =? "A")%string then Some (taskRun None stepsA [] true)
       else if (name =? "C")%string then Some (taskRun None [Some regImg] [] false)
       else None |}.

End examples.

(** ** The deduplication and the resolvers, said declaratively *)

(** Two descriptors have the same identity key; the same URI and digest. *)
Definition sameKey (x y : v1.ResourceDescriptor) : bool :=
  bool_decide (identityKey x = identityKey y).

Definition sameFields (x y : v1.ResourceDescriptor) : bool :=
  bool_decide (v1.URI x = v1.URI y ∧ v1.Digest x = v1.Digest y).

(** The entries of [l] that bear a config name or are the same as none of
    the entries before them, [earlier] being those before [l]. *)
Fixpoint keepFirst (same : v1.ResourceDescriptor → v1.ResourceDescriptor → bool)
    (earlier l : list v1.ResourceDescriptor) : list v1.ResourceDescriptor :=
  match l with
  | [] => []
  | rd :: rest =>
      if isConfigName (v1.Name rd) || negb (existsb (λ x, same x rd) earlier)
      then rd :: keepFirst same (earlier ++ [rd]) rest
      else keepFirst same (earlier ++ [rd]) rest
  end.

(** The names that [TaskRun] and [PipelineRun] give to descriptors. *)
Definition taskRunNames : list string :=
  [taskConfigName; ""; inputResultName; pipelineResourceName].

Definition pipelineRunNames : list string :=
  [pipelineConfigName; pipelineTaskConfigName; ""; inputResultName].

Section stages_declared.
Context `{External} `{!Material}.

(** The pipeline tasks that [fromPipelineTask] goes through: those of the
    pipeline spec, then its finally tasks. *)
Definition declaredStages (pro : PipelineRunObject) : list PipelineTask :=
  match prs_PipelineSpec (pro_Status pro) with
  | Some pSpec => ps_Tasks pSpec ++ ps_Finally pSpec
  | None => []
  end.

(** What one pipeline task adds to the resolved dependencies: nothing
    without an executed task run; else the descriptor of its remote task,
    if any, and those of its step and sidecar images. *)
Definition stageDescriptors (pro : PipelineRunObject) (t : PipelineTask)
  : list v1.ResourceDescriptor :=
  match executedTaskRun pro t with
  | Some tr =>
      configDescriptor pipelineTaskConfigName (trs_Provenance (tro_Status tr))
        ++ convertMaterialsToResolvedDependencies
             ((FromStepImages (trs_Steps (tro_Status tr))).1
                ++ (FromSidecarImages (trs_Sidecars (tro_Status tr))).1) ""
  | None => []
  end.

(** What one pipeline task adds to the log. *)
Definition stageLog (pro : PipelineRunObject) (t : PipelineTask) : list string :=
  match executedTaskRun pro t with
  | Some _ => []
  | None => [notFoundMessage (pt_Name t)]
  end.

(** The error of the first pipeline task whose images cannot be extracted. *)
Fixpoint firstStageError (pro : PipelineRunObject) (ts : list PipelineTask)
  : option error :=
  match ts with
  | [] => None
  | t :: rest =>
      match stageError pro t with
      | Some e => Some e
      | None => firstStageError pro rest
      end
  end.

(** The pipeline tasks before the first one whose images cannot be
    extracted. *)
Fixpoint stagesBeforeError (pro : PipelineRunObject) (ts : list PipelineTask)
  : list PipelineTask :=
  match ts with
  | [] => []
  | t :: rest =>
      match stageError pro t with
      | Some _ => []
      | None => t :: stagesBeforeError pro rest
      end
  end.

(** What [TaskRun] hands to the deduplicator when the images are
    extracted: the task config, the step and sidecar images, the inputs and
    the resources, in this order. *)
Definition taskRunDependencies (ctx : GoContext) (tro : TaskRunObject)
  : list v1.ResourceDescriptor :=
  configDescriptor taskConfigName (trs_Provenance (tro_Status tro))
    ++ convertMaterialsToResolvedDependencies
         ((FromStepImages (trs_Steps (tro_Status tro))).1
            ++ (FromSidecarImages (trs_Sidecars (tro_Status tro))).1) ""
    ++ convertMaterialsToResolvedDependencies
         (FromTaskParamsAndResults ctx tro) inputResultName
    ++ convertMaterialsToResolvedDependencies
         (FromTaskResources ctx tro) pipelineResourceName.

(** What [PipelineRun] hands to the deduplicator when the images of all
    stages are extracted: the pipeline config, what the stages add, in
    their order, and the inputs. *)
Definition pipelineRunDependencies (ctx : GoContext) (pro : PipelineRunObject)
    (slsaconfig : SlsaConfig) : list v1.ResourceDescriptor :=
  configDescriptor pipelineConfigName (prs_Provenance (pro_Status pro))
    ++ mjoin (stageDescriptors pro <$> declaredStages pro)
    ++ convertMaterialsToResolvedDependencies
         (FromPipelineParamsAndResults ctx pro slsaconfig) inputResultName.

End stages_declared.

(** ** More concrete descriptors and runs *)
Module samples.

(** A descriptor named [task] twice, between unnamed ones of the same URI
    and digest. *)
Definition tasksAX : list v1.ResourceDescriptor :=
  [examples.taskAX; examples.pipelineAX; examples.taskAX].


(** A task run whose only step image is also one of its inputs. *)
Definition imageAsInput : @TaskRunObject examples.external :=
  examples.taskRun (Some examples.gitRepo) [Some examples.regImg] [] true.

(** A pipeline run with the stages [A], [B] and [A] again as finally stage;
    the task run of [A] has a remote task and one image, that of [B] has
    the given steps. *)
Definition pipelineABA (stepsB : list (option common.ProvenanceMaterial))
  : @PipelineRunObject examples.external :=
  {| pro_Status :=
       {| prs_Provenance := Some {| prov_RefSource := Some examples.gitRepo |};
          prs_PipelineSpec :=
            Some {| ps_Tasks := [ {| pt_Name := "A" |}; {| pt_Name := "B" |} ];
                    ps_Finally := [ {| pt_Name := "A" |} ] |} |};
     pro_GetTaskRunFromTask := λ name,
       if (name =? "A")%string
       then Some (examples.taskRun (Some examples.gitRepo) [Some examples.regImg] [] true)
       else if (name =? "B")%string
       then Some (examples.taskRun None stepsB [] true)
       else None |}.

End samples.

Arguments json.Marshal : simpl never.
Arguments identityKey : simpl never.
Arguments isSeen : simpl never.
Arguments skips : simpl never.

(** * Properties *)

Section dedup.
Implicit Types (rd a b : v1.ResourceDescriptor) (l out : list v1.ResourceDescriptor).
Implicit Types (seen : gmap string bool) (k : string).

Lemma Marshal_nil_error (v : v1.ResourceDescriptor) :
  json.Marshal v = ((json.Marshal v).1, None).
Proof. reflexivity. Qed.

Lemma removeDuplicateLoop_emitted l out seen :
  removeDuplicateLoop l out seen = (out ++ emitted seen l, None).
Proof.
  revert out seen. induction l as [|rd l IH]; intros out seen; cbn [removeDuplicateLoop].
  - by rewrite app_nil_r.
  - rewrite Marshal_nil_error. fold (identityKey rd). cbn iota.
    fold (isSeen seen (identityKey rd)). fold (skips seen rd).
    cbn [emitted]. destruct (skips seen rd); rewrite IH; [done|].
    by rewrite <- app_assoc.
Qed.

Lemma removeDuplicate_emitted l :
  removeDuplicateResolvedDependencies l = (emitted ∅ l, None).
Proof. apply removeDuplicateLoop_emitted. Qed.

Lemma isSeen_insert seen k k' :
  isSeen (<[k := true]> seen) k' = bool_decide (k = k') || isSeen seen k'.
Proof.
  unfold isSeen. rewrite lookup_insert. case_decide; subst.
  - by rewrite bool_decide_eq_true_2.
  - by rewrite bool_decide_eq_false_2.
Qed.

Lemma isSeen_empty k : isSeen ∅ k = false.
Proof. unfold isSeen. by rewrite lookup_empty. Qed.

Lemma emitted_app seen l1 l2 :
  emitted seen (l1 ++ l2) = emitted seen l1 ++ emitted (seenAfter seen l1) l2.
Proof.
  revert seen. induction l1 as [|rd l1 IH]; intros seen; simpl; [done|].
  destruct (skips seen rd); simpl; by rewrite IH.
Qed.

(** A key is seen after the loop went through [l] exactly when it was seen
    before or is the key of an entry of [l]. *)
Lemma isSeen_seenAfter seen l k :
  isSeen (seenAfter seen l) k = true ↔
  isSeen seen k = true ∨ ∃ rd, rd ∈ l ∧ identityKey rd = k.
Proof.
  revert seen. induction l as [|rd l IH]; intros seen; simpl.
  - split; [by left|]. intros [?|(? & Hin & _)]; [done|]. by apply elem_of_nil in Hin.
  - destruct (skips seen rd) eqn:Hsk; rewrite IH.
    + split.
      * intros [?|(x & Hin & Hk)]; [by left|]. right. exists x. split; [by right|done].
      * intros [?|(x & Hin & Hk)]; [by left|].
        apply elem_of_cons in Hin as [->|Hin]; [|right; by exists x].
        left. unfold skips in Hsk. apply andb_true_iff in Hsk as [Hs _]. by rewrite <- Hk.
    + rewrite isSeen_insert, orb_true_iff, bool_decide_eq_true. split.
      * intros [[?|?]|(x & Hin & Hk)].
        -- right. exists rd. split; [by left|done].
        -- by left.
        -- right. exists x. split; [by right|done].
      * intros [?|(x & Hin & Hk)]; [left; by right|].
        apply elem_of_cons in Hin as [->|Hin]; [left; by left|right; by exists x].
Qed.

(** An entry emitted although its key was seen bears a config name. *)
Lemma emitted_seen_config seen l rd :
  rd ∈ emitted seen l → isSeen seen (identityKey rd) = true →
  isConfigName (v1.Name rd) = true.
Proof.
  revert seen. induction l as [|x l IH]; intros seen; simpl.
  - intros Hin. by apply elem_of_nil in Hin.
  - destruct (skips seen x) eqn:Hsk; [by apply IH|].
    intros Hin Hs. apply elem_of_cons in Hin as [->|Hin].
    + unfold skips in Hsk. rewrite Hs in Hsk. simpl in Hsk.
      by apply negb_false_iff in Hsk.
    + apply (IH _ Hin). rewrite isSeen_insert, Hs. apply orb_true_r.
Qed.

Lemma emitted_sublist seen l : emitted seen l `sublist_of` l.
Proof.
  revert seen. induction l as [|x l IH]; intros seen; simpl; [done|].
  destruct (skips seen x); [by apply sublist_cons|by apply sublist_skip].
Qed.

Lemma emitted_idemp seen l : emitted seen (emitted seen l) = emitted seen l.
Proof.
  revert seen. induction l as [|x l IH]; intros seen; simpl; [done|].
  destruct (skips seen x) eqn:Hsk; [done|]. simpl. by rewrite Hsk, IH.
Qed.

End dedup.

Section dedup_claims.
Implicit Types (rd a b : v1.ResourceDescriptor) (l out : list v1.ResourceDescriptor).

Lemma identityKey_fields a b :
  v1.URI a = v1.URI b → v1.Digest a = v1.Digest b → identityKey a = identityKey b.
Proof. unfold identityKey. by intros -> ->. Qed.

(** Of two emitted entries with one key, the later bears a config name. *)
Lemma emitted_later_config seen l i j a b :
  i < j → emitted seen l !! i = Some a → emitted seen l !! j = Some b →
  identityKey a = identityKey b → isConfigName (v1.Name b) = true.
Proof.
  revert seen i j. induction l as [|x l IH]; intros seen i j Hij; simpl.
  - by rewrite lookup_nil.
  - destruct (skips seen x); [by apply IH|].
    destruct j as [|j]; [lia|]. destruct i as [|i]; simpl.
    + intros [= ->] Hb Hk. apply list_elem_of_lookup_2 in Hb.
      apply (emitted_seen_config _ _ _ Hb).
      rewrite isSeen_insert, Hk, bool_decide_eq_true_2; done.
    + apply IH. lia.
Qed.

(** An entry is emitted in its place when its key is new or its name is a
    config name. *)
Lemma emitted_at seen l1 rd l2 :
  skips (seenAfter seen l1) rd = false →
  emitted seen (l1 ++ rd :: l2) =
  emitted seen l1 ++ rd :: emitted (<[identityKey rd := true]> (seenAfter seen l1)) l2.
Proof. intros Hsk. rewrite emitted_app. simpl. by rewrite Hsk. Qed.

(** An entry without a config name whose key belongs to an earlier entry
    leaves no trace. *)
Lemma emitted_drop_after seen p b l3 :
  (∃ a, a ∈ p ∧ identityKey a = identityKey b) →
  isConfigName (v1.Name b) = false →
  emitted seen (p ++ b :: l3) = emitted seen (p ++ l3).
Proof.
  intros Ha Hb. rewrite !emitted_app. f_equal. simpl.
  assert (skips (seenAfter seen p) b = true) as ->; [|done].
  unfold skips. rewrite Hb, andb_true_r. apply isSeen_seenAfter. by right.
Qed.

Lemma emitted_drop seen l1 a l2 b l3 :
  identityKey a = identityKey b → isConfigName (v1.Name b) = false →
  emitted seen (l1 ++ a :: l2 ++ b :: l3) = emitted seen (l1 ++ a :: l2 ++ l3).
Proof.
  intros Hk Hb.
  change (emitted seen (l1 ++ (a :: l2) ++ b :: l3) = emitted seen (l1 ++ (a :: l2) ++ l3)).
  rewrite !app_assoc. apply emitted_drop_after; [|done].
  exists a. split; [|done]. set_solver.
Qed.

End dedup_claims.

(** ** The identity key of descriptors of valid UTF-8 *)

(** *** What [DecodeRuneInString] accepts *)

Lemma elem_of_rangeN lo hi x : (lo ≤ x)%N → (x ≤ hi)%N → x ∈ rangeN lo hi.
Proof.
  intros Hlo Hhi. unfold rangeN. apply list_elem_of_fmap.
  exists (N.to_nat x). split; [by rewrite N2Nat.id|].
  apply elem_of_seq. lia.
Qed.

Lemma first_lead b sz lo hi :
  utf8.first b = utf8.Lead sz lo hi →
  (0xC2 ≤ b)%N ∧ (b ≤ 0xF4)%N ∧ (sz = 2 ∨ sz = 3 ∨ sz = 4) ∧ (0x80 ≤ lo)%N ∧ (hi ≤ 0xBF)%N.
Proof.
  unfold utf8.first, utf8.locb, utf8.hicb.
  repeat (case_match; try discriminate); intros [= <- <- <-];
    repeat match goal with
      | H : (_ <? _)%N = true |- _ => apply N.ltb_lt in H
      | H : (_ <? _)%N = false |- _ => apply N.ltb_ge in H
      | H : (_ =? _)%N = true |- _ => apply N.eqb_eq in H
      | H : (_ =? _)%N = false |- _ => apply N.eqb_neq in H
      end; repeat split; try lia; auto.
Qed.

(** A rune of more than one byte has the width that its first byte
    announces, and the string holds that many bytes. *)
Lemma decode_size s0 t c n :
  utf8.DecodeRuneInString (s0 :: t) = (c, n) → n ≠ 1 →
  (0x80 ≤ s0)%N ∧ n = utf8.leadSize s0 ∧ (2 ≤ n)%nat ∧ (n ≤ 4)%nat ∧ (n ≤ List.length (s0 :: t))%nat.
Proof.
  unfold utf8.leadSize. cbn [utf8.DecodeRuneInString].
  destruct (utf8.first s0) as [| |sz lo hi] eqn:Hf; [by intros [= <- <-]..|].
  apply first_lead in Hf as (H0 & _ & Hsz & _).
  destruct (_ <? sz)%nat eqn:Hlen; [by intros [= <- <-]|].
  apply Nat.ltb_ge in Hlen.
  destruct t as [|s1 t1]; [by intros [= <- <-]|].
  destruct (utf8.outside lo hi s1); [by intros [= <- <-]|].
  destruct (sz <=? 2)%nat eqn:H2.
  { apply Nat.leb_le in H2. intros [= <- <-] _. repeat split; lia. }
  apply Nat.leb_gt in H2.
  destruct t1 as [|s2 t2]; [by intros [= <- <-]|].
  destruct (utf8.outside _ _ s2); [by intros [= <- <-]|].
  destruct (sz <=? 3)%nat eqn:H3.
  { apply Nat.leb_le in H3. intros [= <- <-] _. repeat split; lia. }
  apply Nat.leb_gt in H3.
  destruct t2 as [|s3 t3]; [by intros [= <- <-]|].
  destruct (utf8.outside _ _ s3); [by intros [= <- <-]|].
  intros [= <- <-] _. repeat split; lia.
Qed.

Lemma first_lead_ranges b sz lo hi :
  utf8.first b = utf8.Lead sz lo hi →
  (sz = 2 → (b ≤ 0xDF)%N)
  ∧ (sz = 3 → (0xE0 ≤ b)%N ∧ (b ≤ 0xEF)%N)
  ∧ (sz = 4 → (0xF0 ≤ b)%N ∧ (b = 0xF0%N → lo = 0x90%N)).
Proof.
  unfold utf8.first, utf8.locb, utf8.hicb.
  repeat (case_match; try discriminate); intros [= <- <- <-];
    repeat match goal with
      | H : (_ <? _)%N = true |- _ => apply N.ltb_lt in H
      | H : (_ <? _)%N = false |- _ => apply N.ltb_ge in H
      | H : (_ =? _)%N = true |- _ => apply N.eqb_eq in H
      | H : (_ =? _)%N = false |- _ => apply N.eqb_neq in H
      end; repeat split; intros; try lia; try done.
Qed.

Lemma outside_false lo hi b : utf8.outside lo hi b = false → (lo ≤ b)%N ∧ (b ≤ hi)%N.
Proof.
  unfold utf8.outside. intros [H1 H2]%orb_false_iff.
  apply N.ltb_ge in H1, H2. done.
Qed.

Lemma check2_true : check2 = true.
Proof. vm_compute. reflexivity. Qed.
Lemma check3_true : check3 = true.
Proof. vm_compute. reflexivity. Qed.
Lemma check4_true : check4 = true.
Proof. vm_compute. reflexivity. Qed.

Lemma forallb_rangeN (P : N → bool) lo hi x :
  forallb P (rangeN lo hi) = true → (lo ≤ x)%N → (x ≤ hi)%N → P x = true.
Proof.
  intros HP Hlo Hhi. rewrite forallb_forall in HP. apply HP.
  apply list_elem_of_In. by apply elem_of_rangeN.
Qed.

Lemma isSep_iff c : utf8.isSep c = true ↔ c = 0x2028%N ∨ c = 0x2029%N.
Proof. unfold utf8.isSep. rewrite orb_true_iff, !N.eqb_eq. done. Qed.

Lemma rune2_not_sep s0 s1 :
  (0xC2 ≤ s0)%N → (s0 ≤ 0xDF)%N → (0x80 ≤ s1)%N → (s1 ≤ 0xBF)%N →
  utf8.isSep (rune2 s0 s1) = false.
Proof.
  intros. apply negb_true_iff.
  apply (forallb_rangeN (λ s1, negb (utf8.isSep (rune2 s0 s1))) 0x80 0xBF); [|done..].
  by apply (forallb_rangeN _ 0xC2 0xDF s0 check2_true).
Qed.

Lemma rune3_sep s0 s1 s2 :
  (0xE0 ≤ s0)%N → (s0 ≤ 0xEF)%N → (0x80 ≤ s1)%N → (s1 ≤ 0xBF)%N →
  (0x80 ≤ s2)%N → (s2 ≤ 0xBF)%N →
  utf8.isSep (rune3 s0 s1 s2) = true →
  s0 = 0xE2%N ∧ s1 = 0x80%N ∧ s2 = (0xA8 + (rune3 s0 s1 s2 - 0x2028))%N.
Proof.
  intros ? ? ? ? ? ? Hsep.
  pose proof (forallb_rangeN _ 0xE0 0xEF s0 check3_true) as K.
  cbv beta in K.
  pose proof (forallb_rangeN _ 0x80 0xBF s1 (K ltac:(done) ltac:(done))) as K'.
  cbv beta in K'.
  pose proof (forallb_rangeN _ 0x80 0xBF s2 (K' ltac:(done) ltac:(done))) as K''.
  cbv beta zeta in K''. specialize (K'' ltac:(done) ltac:(done)).
  rewrite Hsep in K''. simpl in K''.
  apply andb_true_iff in K'' as [[Ha Hb]%andb_true_iff Hc].
  apply N.eqb_eq in Ha, Hb, Hc. done.
Qed.

Lemma rune4_not_sep s0 s1 s2 s3 lo hi :
  utf8.first s0 = utf8.Lead 4 lo hi → utf8.outside lo hi s1 = false →
  utf8.isSep (N.lor (N.lor (N.lor (N.shiftl (N.land s0 utf8.mask4) 18)
                             (N.shiftl (N.land s1 utf8.maskx) 12))
                      (N.shiftl (N.land s2 utf8.maskx) 6))
               (N.land s3 utf8.maskx)) = false.
Proof.
  intros Hf Ho. fold (rune4hi s0 s1).
  pose proof (first_lead _ _ _ _ Hf) as (H0 & H0' & _ & Hlo & Hhi).
  pose proof (first_lead_ranges _ _ _ _ Hf) as (_ & _ & H4).
  destruct (H4 eq_refl) as [HF0 Hlo']. apply outside_false in Ho as [Ho1 Ho2].
  pose proof (forallb_rangeN _ 0xF0 0xF4 s0 check4_true HF0 H0') as Hc.
  cbv beta in Hc.
  pose proof (forallb_rangeN _ 0x80 0xBF s1 Hc ltac:(lia) ltac:(lia)) as Hc'.
  cbv beta in Hc'. apply orb_true_iff in Hc' as [Hc'|Hc'].
  { apply andb_true_iff in Hc' as [Ha Hb]. apply N.eqb_eq in Ha. apply N.ltb_lt in Hb.
    rewrite (Hlo' Ha) in Ho1. lia. }
  apply N.leb_le in Hc'.
  apply not_true_is_false. intros [Hs|Hs]%isSep_iff.
  all: apply (f_equal N.log2) in Hs; rewrite !N.log2_lor in Hs;
    change (N.log2 0x2028) with 13%N in Hs; change (N.log2 0x2029) with 13%N in Hs;
    lia.
Qed.

(** The separators are decoded from E2 80 A8 and E2 80 A9 only. *)
Lemma decode_sep s0 t c n :
  utf8.DecodeRuneInString (s0 :: t) = (c, n) → n ≠ 1 → utf8.isSep c = true →
  n = 3 ∧ ∃ t', s0 :: t = 0xE2%N :: 0x80%N :: (0xA8 + (c - 0x2028))%N :: t'.
Proof.
  cbn [utf8.DecodeRuneInString].
  destruct (utf8.first s0) as [| |sz lo hi] eqn:Hf; [by intros [= <- <-]..|].
  pose proof (first_lead _ _ _ _ Hf) as (H0 & H0' & Hsz & Hlo & Hhi).
  pose proof (first_lead_ranges _ _ _ _ Hf) as (R2 & R3 & R4).
  destruct (_ <? sz)%nat eqn:Hlen; [by intros [= <- <-]|].
  destruct t as [|s1 t1]; [by intros [= <- <-]|].
  destruct (utf8.outside lo hi s1) eqn:Ho1; [by intros [= <- <-]|].
  pose proof (outside_false _ _ _ Ho1) as [Ho1a Ho1b].
  destruct (sz <=? 2)%nat eqn:H2.
  { apply Nat.leb_le in H2. intros [= <- <-] _ Hsep. exfalso.
    assert (sz = 2) as Hsz2 by lia. specialize (R2 Hsz2).
    fold (rune2 s0 s1) in Hsep. rewrite rune2_not_sep in Hsep; [done|lia..]. }
  apply Nat.leb_gt in H2.
  destruct t1 as [|s2 t2]; [by intros [= <- <-]|].
  destruct (utf8.outside _ _ s2) eqn:Ho2; [by intros [= <- <-]|].
  pose proof (outside_false _ _ _ Ho2) as [Ho2a Ho2b].
  unfold utf8.locb, utf8.hicb in Ho2a, Ho2b.
  destruct (sz <=? 3)%nat eqn:H3.
  { apply Nat.leb_le in H3. intros [= <- <-] _ Hsep.
    assert (sz = 3) as Hsz3 by lia. destruct (R3 Hsz3) as [R3a R3b].
    fold (rune3 s0 s1 s2) in Hsep |- *.
    apply rune3_sep in Hsep as (-> & -> & Hs2); [|lia..].
    split; [done|]. exists t2. by rewrite <- Hs2. }
  apply Nat.leb_gt in H3.
  destruct t2 as [|s3 t3]; [by intros [= <- <-]|].
  destruct (utf8.outside _ _ s3); [by intros [= <- <-]|].
  intros [= <- <-] _ Hsep. exfalso.
  assert (sz = 4) as -> by lia.
  by rewrite (rune4_not_sep _ _ _ _ _ _ Hf Ho1) in Hsep.
Qed.

(** Strings *)
(** *** Strings and their slices *)

Lemma append_String a s t : String a s +:+ t = String a (s +:+ t).
Proof. reflexivity. Qed.

Lemma String_inj a s b t : String a s = String b t → a = b ∧ s = t.
Proof. by intros [= -> ->]. Qed.

Lemma append_empty_l s : "" +:+ s = s.
Proof. reflexivity. Qed.

Lemma append_empty_r s : s +:+ "" = s.
Proof. induction s as [|a s IH]; [done|]. by rewrite append_String, IH. Qed.

Lemma append_assoc (a b c : string) : (a +:+ b) +:+ c = a +:+ (b +:+ c).
Proof. induction a as [|x a IH]; [done|]. by rewrite !append_String, IH. Qed.

Lemma append_length_inj (r1 r2 x y : string) :
  String.length r1 = String.length r2 → r1 +:+ x = r2 +:+ y → r1 = r2 ∧ x = y.
Proof.
  revert r2. induction r1 as [|a r1 IH]; intros [|b r2]; simpl; try done.
  intros [= Hl]. rewrite !append_String. intros [= -> Hr].
  destruct (IH _ Hl Hr) as [-> ->]. done.
Qed.

Lemma sliceTo_sliceFrom n s : sliceTo n s +:+ sliceFrom n s = s.
Proof.
  revert s. induction n as [|n IH]; intros [|a s]; simpl; try done.
  by rewrite append_String, IH.
Qed.

Lemma length_sliceFrom n s :
  String.length (sliceFrom n s) = (String.length s - n)%nat.
Proof. revert s. induction n as [|n IH]; intros [|a s]; simpl; auto. Qed.

Lemma length_sliceTo n s :
  String.length (sliceTo n s) = (n `min` String.length s)%nat.
Proof. revert s. induction n as [|n IH]; intros [|a s]; simpl; auto. Qed.

Lemma sliceTo_sliceTo n m s :
  (n ≤ m)%nat → sliceTo n (sliceTo m s) = sliceTo n s.
Proof.
  revert m s. induction n as [|n IH]; intros [|m] [|a s] ?; simpl; try done; try lia.
  rewrite IH; [done|lia].
Qed.

Lemma length_bytes s : List.length (bytes s) = String.length s.
Proof. unfold bytes. rewrite length_fmap. induction s; simpl; auto. Qed.

Lemma N_of_ascii_inj a b : N_of_ascii a = N_of_ascii b → a = b.
Proof. intros Hab. by rewrite <- (ascii_N_embedding a), Hab, ascii_N_embedding. Qed.

Lemma bytes_String b s : bytes (String b s) = N_of_ascii b :: bytes s.
Proof. reflexivity. Qed.

Lemma bytes_inj s1 s2 : bytes s1 = bytes s2 → s1 = s2.
Proof.
  revert s2. induction s1 as [|a s1 IH]; intros [|b s2]; try done.
  rewrite !bytes_String. intros [= Hab Hs]. apply N_of_ascii_inj in Hab as ->.
  by rewrite (IH _ Hs).
Qed.

(** *** The loop of [appendString] on valid UTF-8 *)

(** On a valid string the loop goes from rune to rune. *)
Lemma encodes_loop fuel s :
  (String.length s ≤ fuel)%nat → utf8.validLoop fuel s = true →
  encodes s (json.appendStringLoop fuel s).
Proof.
  revert s. induction fuel as [|fuel IH]; intros [|b rest] Hlen; simpl in Hlen;
    try lia; try (intros _; apply enc_nil).
  cbn [utf8.validLoop json.appendStringLoop]. cbv zeta.
  destruct (N_of_ascii b <? utf8.RuneSelf)%N eqn:Hb.
  - apply N.ltb_lt in Hb. intros Hv.
    destruct (json.htmlSafeSet (N_of_ascii b)) eqn:Hsafe.
    + apply (enc_cons (String b "") (String b "")); [by apply rp_safe|].
      apply IH; [lia|done].
    + apply (enc_cons (String b "")); [by apply rp_esc|]. apply IH; [lia|done].
  - apply N.ltb_ge in Hb.
    destruct (utf8.DecodeRuneInString _) as [c size] eqn:Hd.
    destruct (size =? 1)%nat eqn:H1; [done|]. apply Nat.eqb_neq in H1.
    rewrite andb_false_r. intros Hv.
    change (sliceTo utf8.UTFMax (String b rest))
      with (String b (sliceTo 3 rest)) in Hd.
    rewrite bytes_String in Hd.
    pose proof (decode_size _ _ _ _ Hd H1) as (_ & Hsz & Hs2 & Hs4 & Hsl).
    rewrite <- bytes_String, length_bytes in Hsl.
    change (String b (sliceTo 3 rest)) with (sliceTo 4 (String b rest)) in Hsl.
    rewrite length_sliceTo in Hsl.
    assert (String.length (sliceFrom size (String b rest)) ≤ fuel)%nat as Hrest.
    { rewrite length_sliceFrom. simpl. lia. }
    destruct (utf8.isSep c) eqn:Hsep.
    + destruct (decode_sep _ _ _ _ Hd H1 Hsep) as (-> & t' & Ht).
      rewrite <- (sliceTo_sliceFrom 3 (String b rest)) at 1.
      assert (sliceTo 3 (String b rest) = sepBytes (N.land c 0xF)) as ->.
      { apply bytes_inj.
        rewrite <- (sliceTo_sliceTo 3 4) by lia.
        change (sliceTo 4 (String b rest)) with (String b (sliceTo 3 rest)).
        rewrite <- bytes_String in Ht.
        destruct (sliceTo 3 rest) as [|a1 [|a2 r2]]; try done.
        rewrite !bytes_String in Ht. injection Ht as H0 Ha1 Ha2 _.
        cbn [sliceTo]. rewrite !bytes_String, H0, Ha1, Ha2.
        apply isSep_iff in Hsep as [->| ->]; reflexivity. }
      rewrite <- append_assoc.
      apply (enc_cons _ (sepEscape (N.land c 0xF))); [|by apply IH].
      apply rp_sep. apply isSep_iff in Hsep as [->| ->]; auto.
    + rewrite <- (sliceTo_sliceFrom size (String b rest)) at 1.
      destruct size as [|size]; [lia|]. cbn [sliceTo].
      apply enc_cons; [|by apply IH].
      apply rp_raw; [done|]. rewrite <- Hsz. simpl. rewrite length_sliceTo.
      cbn [String.length] in Hsl. lia.
Qed.

(** An escape is read back whatever follows it. *)
Lemma unescape_escapeByte (b : ascii) (x : string) :
  (N_of_ascii b < 0x80)%N → json.htmlSafeSet (N_of_ascii b) = false →
  unescape (json.escapeByte (N_of_ascii b) +:+ x) = Some (N_of_ascii b).
Proof.
  destruct b as [[] [] [] [] [] [] [] []]; intros H1 H2;
    first [ vm_compute in H2; discriminate H2
          | vm_compute in H1; discriminate H1
          | vm_compute; reflexivity ].
Qed.

Lemma unescape_sepEscape (d : N) (x : string) :
  d = 8%N ∨ d = 9%N → unescape (sepEscape d +:+ x) = Some (0x2020 + d)%N.
Proof. intros [->| ->]; vm_compute; reflexivity. Qed.

Lemma runePair_head src enc :
  runePair src enc →
  ∃ c e, enc = String c e ∧ c ≠ json.quote
         ∧ (c = json.backslash ∨ enc = src ∧ json.htmlSafeSet (N_of_ascii c) = true
            ∨ enc = src ∧ (0x80 ≤ N_of_ascii c)%N).
Proof.
  intros [b Hb Hs|b Hb Hs|d Hd|b r Hb Hl].
  - exists b, "". split; [done|]. split; [|auto].
    intros ->. by vm_compute in Hs.
  - eexists _, _. split; [reflexivity|]. split; [by vm_compute|by left].
  - eexists _, _. split; [reflexivity|]. split; [by vm_compute|by left].
  - exists b, r. split; [done|]. split; [|auto].
    intros ->. by vm_compute in Hb.
Qed.

(** The escapes form a prefix code. *)
Lemma runePair_prefix src1 enc1 src2 enc2 x y :
  runePair src1 enc1 → runePair src2 enc2 →
  enc1 +:+ x = enc2 +:+ y → src1 = src2 ∧ x = y.
Proof.
  intros [b1 Hb1 Hs1|b1 Hb1 Hs1|d1 Hd1|b1 r1 Hb1 Hl1]
         [b2 Hb2 Hs2|b2 Hb2 Hs2|d2 Hd2|b2 r2 Hb2 Hl2] Heq;
    pose proof Heq as Hhd;
    unfold json.escapeByte, sepEscape in Hhd;
    rewrite ?append_String, ?append_empty_l in Hhd;
    apply String_inj in Hhd as [Hhd Htl].
  - by subst.
  - subst. by vm_compute in Hs1.
  - subst. by vm_compute in Hs1.
  - subst. lia.
  - subst. by vm_compute in Hs2.
  - pose proof (f_equal unescape Heq) as Hu.
    rewrite !unescape_escapeByte in Hu by done. injection Hu as Hu.
    apply N_of_ascii_inj in Hu as ->. split; [done|]. by apply String.app_inj in Heq.
  - pose proof (f_equal unescape Heq) as Hu.
    rewrite unescape_escapeByte, unescape_sepEscape in Hu by done.
    injection Hu as Hu. destruct Hd2 as [->| ->]; simpl in Hu; lia.
  - subst. by vm_compute in Hb2.
  - subst. by vm_compute in Hs2.
  - pose proof (f_equal unescape Heq) as Hu.
    rewrite unescape_escapeByte, unescape_sepEscape in Hu by done.
    injection Hu as Hu. destruct Hd1 as [->| ->]; simpl in Hu; lia.
  - pose proof (f_equal unescape Heq) as Hu.
    rewrite !unescape_sepEscape in Hu by done. injection Hu as Hu.
    assert (d1 = d2) as -> by lia. split; [done|]. by apply String.app_inj in Heq.
  - subst. by vm_compute in Hb2.
  - subst. lia.
  - subst. by vm_compute in Hb1.
  - subst. by vm_compute in Hb1.
  - subst. apply append_length_inj in Heq; [done|]. by rewrite Hl1, Hl2.
Qed.

Lemma encodes_prefix s1 e1 s2 e2 r1 r2 :
  encodes s1 e1 → encodes s2 e2 →
  e1 +:+ String json.quote r1 = e2 +:+ String json.quote r2 →
  s1 = s2 ∧ r1 = r2.
Proof.
  intros H1. revert s2 e2. induction H1 as [|src1 enc1 s1 e1 Hp1 _ IH];
    intros s2 e2 [|src2 enc2 s2' e2' Hp2 H2].
  - rewrite !append_empty_l. by intros [= ->].
  - apply runePair_head in Hp2 as (c & e & -> & Hc & _).
    rewrite append_empty_l, append_assoc, append_String. by intros [= <-].
  - apply runePair_head in Hp1 as (c & e & -> & Hc & _).
    rewrite append_empty_l, append_assoc, append_String. by intros [= ->].
  - rewrite !append_assoc. intros Heq.
    destruct (runePair_prefix _ _ _ _ _ _ Hp1 Hp2 Heq) as [-> Heq'].
    destruct (IH _ _ H2 Heq') as [-> ->]. done.
Qed.

(** A JSON string literal of a valid string is read back in one way only. *)
Lemma appendString_prefix s1 s2 r1 r2 :
  utf8.ValidString s1 = true → utf8.ValidString s2 = true →
  json.appendString s1 +:+ r1 = json.appendString s2 +:+ r2 →
  s1 = s2 ∧ r1 = r2.
Proof.
  intros H1 H2. unfold json.appendString.
  rewrite !append_String, !append_assoc, !append_String, !append_empty_l.
  intros [= Heq].
  eapply encodes_prefix; [apply encodes_loop, H1|apply encodes_loop, H2|done]; done.
Qed.

(** *** Digest sets and descriptors *)

Lemma encodeEntry_prefix kv1 kv2 r1 r2 :
  validEntry kv1 → validEntry kv2 →
  json.encodeEntry kv1 +:+ r1 = json.encodeEntry kv2 +:+ r2 → kv1 = kv2 ∧ r1 = r2.
Proof.
  destruct kv1 as [k1 v1], kv2 as [k2 v2]. intros [Hk1 Hv1] [Hk2 Hv2].
  unfold json.encodeEntry. simpl in *. rewrite !append_assoc. intros Heq.
  apply appendString_prefix in Heq as [-> Heq]; [|done..].
  apply String.app_inj in Heq.
  apply appendString_prefix in Heq as [-> ->]; done.
Qed.

Lemma concat_cons (sep x : string) (l : list string) :
  String.concat sep (x :: l)
  = x +:+ match l with [] => "" | _ :: _ => sep +:+ String.concat sep l end.
Proof. destruct l; simpl; [|done]. by rewrite append_empty_r. Qed.

Lemma encodeEntry_head kv : ∃ e, json.encodeEntry kv = String json.quote e.
Proof. unfold json.encodeEntry, json.appendString. rewrite !append_String. eauto. Qed.

Lemma entries_prefix l1 l2 r1 r2 :
  Forall validEntry l1 → Forall validEntry l2 →
  String.concat "," (json.encodeEntry <$> l1) +:+ ("}" +:+ r1)
  = String.concat "," (json.encodeEntry <$> l2) +:+ ("}" +:+ r2) →
  l1 = l2 ∧ r1 = r2.
Proof.
  intros H1. revert l2. induction H1 as [|kv1 l1 Hv1 H1 IH]; intros ? [|kv2 l2 Hv2 H2].
  - simpl. rewrite !append_empty_l. intros Heq. by apply String.app_inj in Heq as ->.
  - rewrite fmap_cons, concat_cons. destruct (encodeEntry_head kv2) as [e ->].
    simpl. rewrite !append_empty_l, !append_String.
    intros [Hq _]%String_inj. by vm_compute in Hq.
  - rewrite fmap_cons, concat_cons. destruct (encodeEntry_head kv1) as [e ->].
    simpl. rewrite !append_empty_l, !append_String.
    intros [Hq _]%String_inj. by vm_compute in Hq.
  - rewrite !fmap_cons, !concat_cons, !append_assoc. intros Heq.
    apply encodeEntry_prefix in Heq as [-> Heq]; [|done..].
    destruct l1 as [|kv1' l1], l2 as [|kv2' l2].
    + rewrite !append_empty_l in Heq. by apply String.app_inj in Heq as ->.
    + exfalso. simpl in Heq. rewrite !append_empty_l, !append_String in Heq.
      apply String_inj in Heq as [Hq _]. by vm_compute in Hq.
    + exfalso. simpl in Heq. rewrite !append_empty_l, !append_String in Heq.
      apply String_inj in Heq as [Hq _]. by vm_compute in Hq.
    + specialize (IH _ H2). cbn [fmap list_fmap] in Heq, IH.
      rewrite !append_assoc in Heq. apply String.app_inj in Heq.
      destruct (IH Heq) as [[= -> ->] ->]. done.
Qed.

Lemma sortedEntries_valid (m : DigestSet) :
  map_Forall (λ k v, validEntry (k, v)) m → Forall validEntry (json.sortedEntries m).
Proof.
  intros Hm. unfold json.sortedEntries. rewrite merge_sort_Permutation.
  apply map_Forall_to_list in Hm. eapply Forall_impl; [exact Hm|]. by intros [k v].
Qed.

Lemma sortedEntries_inj (m1 m2 : DigestSet) :
  json.sortedEntries m1 = json.sortedEntries m2 → m1 = m2.
Proof.
  intros Heq. apply map_to_list_inj.
  rewrite <- (merge_sort_Permutation json.keyLe (map_to_list m1)).
  rewrite <- (merge_sort_Permutation json.keyLe (map_to_list m2)).
  unfold json.sortedEntries in Heq. by rewrite Heq.
Qed.

Lemma encodeMap_prefix (m1 m2 : DigestSet) r1 r2 :
  map_Forall (λ k v, validEntry (k, v)) m1 →
  map_Forall (λ k v, validEntry (k, v)) m2 →
  json.encodeMap m1 +:+ r1 = json.encodeMap m2 +:+ r2 → m1 = m2 ∧ r1 = r2.
Proof.
  intros H1 H2. unfold json.encodeMap, json.encodeRanged.
  fold (json.sortedEntries m1) (json.sortedEntries m2).
  rewrite !append_assoc. intros Heq.
  apply String.app_inj in Heq.
  apply entries_prefix in Heq as [Heq ->]; [|by apply sortedEntries_valid..].
  split; [|done]. by apply sortedEntries_inj.
Qed.

Lemma length_zero_empty (s : string) : (String.length s =? 0)%nat = true → s = "".
Proof. by destruct s. Qed.

Lemma size_zero_empty (m : DigestSet) : (size m =? 0)%nat = true → m = ∅.
Proof. intros H%Nat.eqb_eq. by apply map_size_empty_iff. Qed.

Lemma appendString_head s : ∃ e, json.appendString s = String json.quote e.
Proof. unfold json.appendString. rewrite append_String. eauto. Qed.

Lemma field_name_prefix (n1 n2 x y : string) :
  utf8.ValidString n1 = true → utf8.ValidString n2 = true → n1 ≠ n2 →
  json.appendString n1 +:+ x ≠ json.appendString n2 +:+ y.
Proof. intros H1 H2 Hne Heq. by apply appendString_prefix in Heq as [? _]. Qed.

(** The three ways to settle an equation between two marshalled structs:
    one is at its end where the other has a field, the two have fields of
    different names, or fields of the same name. *)
Ltac head_mismatch Heq :=
  exfalso;
  match type of Heq with
  | _ = json.appendString ?n +:+ _ =>
      let e := fresh "e" in let He := fresh "He" in let Hq := fresh "Hq" in
      destruct (appendString_head n) as [e He];
      rewrite He, !append_String in Heq;
      apply String_inj in Heq as [Hq _]; by vm_compute in Hq
  | json.appendString ?n +:+ _ = _ =>
      let e := fresh "e" in let He := fresh "He" in let Hq := fresh "Hq" in
      destruct (appendString_head n) as [e He];
      rewrite He, !append_String in Heq;
      apply String_inj in Heq as [Hq _]; by vm_compute in Hq
  end.

Ltac name_mismatch Heq :=
  exfalso; revert Heq; apply field_name_prefix; [reflexivity|reflexivity|discriminate].

Ltac same_name Heq :=
  apply appendString_prefix in Heq as [_ Heq]; [|reflexivity..];
  apply String.app_inj in Heq.

(** Descriptors of valid UTF-8 with one identity key have the same URI and
    the same digest. *)
Lemma identityKey_inj (a b : v1.ResourceDescriptor) :
  validDescriptor a → validDescriptor b → identityKey a = identityKey b →
  v1.URI a = v1.URI b ∧ v1.Digest a = v1.Digest b.
Proof.
  intros [Hua Hma] [Hub Hmb].
  unfold identityKey, json.Marshal, json.MarshalRanged, json.encodeStruct.
  cbn [fst v1.URI v1.Digest v1.Name].
  fold (json.encodeMap (v1.Digest a)) (json.encodeMap (v1.Digest b)).
  destruct (String.length (v1.URI a) =? 0)%nat eqn:Ea;
  destruct (size (v1.Digest a) =? 0)%nat eqn:Ma;
  destruct (String.length (v1.URI b) =? 0)%nat eqn:Eb;
  destruct (size (v1.Digest b) =? 0)%nat eqn:Mb;
  cbn [json.omitempty app fmap list_fmap String.concat String.length Nat.eqb fst snd];
  rewrite ?append_assoc, ?append_empty_l; intros Heq; apply String.app_inj in Heq;
  try apply length_zero_empty in Ea; try apply length_zero_empty in Eb;
  try apply size_zero_empty in Ma; try apply size_zero_empty in Mb.
  - by rewrite Ea, Eb, Ma, Mb.
  - head_mismatch Heq.
  - head_mismatch Heq.
  - head_mismatch Heq.
  - head_mismatch Heq.
  - same_name Heq. apply encodeMap_prefix in Heq as [-> _]; [|done..].
    by rewrite Ea, Eb.
  - name_mismatch Heq.
  - name_mismatch Heq.
  - head_mismatch Heq.
  - name_mismatch Heq.
  - same_name Heq. apply appendString_prefix in Heq as [-> _]; [|done..].
    by rewrite Ma, Mb.
  - same_name Heq. apply appendString_prefix in Heq as [_ Heq]; [|done..].
    exfalso. rewrite !append_String in Heq.
    apply String_inj in Heq as [Hq _]. by vm_compute in Hq.
  - head_mismatch Heq.
  - name_mismatch Heq.
  - same_name Heq. apply appendString_prefix in Heq as [_ Heq]; [|done..].
    exfalso. rewrite !append_String in Heq.
    apply String_inj in Heq as [Hq _]. by vm_compute in Hq.
  - same_name Heq. apply appendString_prefix in Heq as [-> Heq]; [|done..].
    apply String.app_inj in Heq. same_name Heq.
    by apply encodeMap_prefix in Heq as [-> _].
Qed.

Lemma ValidString_example : utf8.ValidString "git+https://github.com/tektoncd/chains" = true.
Proof. reflexivity. Qed.

(** ** The deduplicator *)

(** C1. The output of the deduplicator never holds, at two places, entries
    with the same URI and the same digest unless one of the two is named
    [task] or [pipeline]; and the identity key is determined by the URI and
    the digest alone, whatever the names. *)
Theorem removeDuplicate_no_plain_duplicates :
  (∀ (l : list v1.ResourceDescriptor) (i j : nat) (a b : v1.ResourceDescriptor),
      i < j →
      (removeDuplicateResolvedDependencies l).1 !! i = Some a →
      (removeDuplicateResolvedDependencies l).1 !! j = Some b →
      v1.URI a = v1.URI b → v1.Digest a = v1.Digest b →
      isConfigName (v1.Name a) = true ∨ isConfigName (v1.Name b) = true)
  ∧ (∀ a b : v1.ResourceDescriptor,
      v1.URI a = v1.URI b → v1.Digest a = v1.Digest b →
      identityKey a = identityKey b).
Proof.
  split; [|apply identityKey_fields].
  intros l i j a b Hij Ha Hb HU HD. right.
  rewrite removeDuplicate_emitted in Ha, Hb.
  eapply emitted_later_config; eauto using identityKey_fields.
Qed.

Lemma removeDuplicate_no_plain_duplicates_witness :
  isConfigName (v1.Name examples.taskAX) = true
  ∨ isConfigName (v1.Name examples.pipelineAX) = true.
Proof.
  apply (proj1 removeDuplicate_no_plain_duplicates
           [examples.taskAX; examples.plainAX; examples.pipelineAX] 0 1);
    [lia | vm_compute; reflexivity..].
Defined.

(** C2. Every entry of the input named [task] or [pipeline] is emitted, at
    its place after what the entries before it gave, however many entries
    with the same URI and digest come before it. *)
Theorem removeDuplicate_keeps_config
    (l1 l2 : list v1.ResourceDescriptor) (rd : v1.ResourceDescriptor) :
  isConfigName (v1.Name rd) = true →
  ∃ o2, removeDuplicateResolvedDependencies (l1 ++ rd :: l2)
        = ((removeDuplicateResolvedDependencies l1).1 ++ rd :: o2, None).
Proof.
  intros Hc. rewrite !removeDuplicate_emitted. simpl.
  rewrite emitted_at; [by eexists|].
  unfold skips. rewrite Hc. apply andb_false_r.
Qed.

Lemma removeDuplicate_keeps_config_witness :
  ∃ o2, removeDuplicateResolvedDependencies
          ([examples.plainAX; examples.plainAX] ++ examples.taskAX :: [examples.plainBY])
        = ((removeDuplicateResolvedDependencies [examples.plainAX; examples.plainAX]).1
             ++ examples.taskAX :: o2, None).
Proof. apply removeDuplicate_keeps_config. reflexivity. Defined.

Lemma validDescriptor_sha256 (name uri d : string) :
  utf8.ValidString uri = true → utf8.ValidString d = true →
  validDescriptor {| v1.Name := name; v1.URI := uri; v1.Digest := examples.sha256 d |}.
Proof.
  intros Hu Hd. split; [done|]. unfold examples.sha256. simpl.
  apply map_Forall_singleton. split; [reflexivity|done].
Qed.






Lemma valid_BY_task_BY :
  Forall validDescriptor [examples.plainBY; examples.taskAX; examples.plainBY].
Proof. repeat apply Forall_cons_2; [apply validDescriptor_sha256; reflexivity..|apply Forall_nil_2]. Qed.

(** X23. The output is the input with some entries removed and none
    reordered, and the first entry with each identity key, the
    serialization of the URI and the digest, is emitted at its place.
    When the strings of the input are valid UTF-8, descriptors that differ
    in the URI or the digest differ in the key, so that the first entry
    with each URI and digest is emitted at its place. *)
Theorem removeDuplicate_keeps_order (l : list v1.ResourceDescriptor) :
  (removeDuplicateResolvedDependencies l).1 `sublist_of` l
  ∧ (removeDuplicateResolvedDependencies l).2 = None
  ∧ (∀ l1 rd l2, l = l1 ++ rd :: l2 →
       (∀ x, x ∈ l1 → identityKey x ≠ identityKey rd) →
       ∃ o2, (removeDuplicateResolvedDependencies l).1
             = (removeDuplicateResolvedDependencies l1).1 ++ rd :: o2)
  ∧ (Forall validDescriptor l →
     ∀ l1 rd l2, l = l1 ++ rd :: l2 →
       (∀ x, x ∈ l1 → ¬ (v1.URI x = v1.URI rd ∧ v1.Digest x = v1.Digest rd)) →
       ∃ o2, (removeDuplicateResolvedDependencies l).1
             = (removeDuplicateResolvedDependencies l1).1 ++ rd :: o2).
Proof.
  assert (∀ l1 rd l2, l = l1 ++ rd :: l2 →
            (∀ x, x ∈ l1 → identityKey x ≠ identityKey rd) →
            ∃ o2, (removeDuplicateResolvedDependencies l).1
                  = (removeDuplicateResolvedDependencies l1).1 ++ rd :: o2) as Hkey.
  { intros l1 rd l2 -> Hnew. rewrite !removeDuplicate_emitted. simpl.
    rewrite emitted_at; [by eexists|].
    unfold skips. apply andb_false_intro1, not_true_is_false. intros Hs.
    apply isSeen_seenAfter in Hs as [Hs|(x & Hx & Hk)].
    - by rewrite isSeen_empty in Hs.
    - by apply (Hnew x). }
  split; [rewrite removeDuplicate_emitted; apply emitted_sublist|].
  split; [by rewrite removeDuplicate_emitted|]. split; [exact Hkey|].
  intros Hvalid l1 rd l2 Hl Hnew.
  apply (Hkey l1 rd l2 Hl). intros x Hx Hk. apply (Hnew x Hx).
  rewrite Forall_forall in Hvalid.
  apply identityKey_inj; [apply Hvalid..|done]; rewrite Hl; set_solver.
Qed.

Lemma removeDuplicate_keeps_order_witness :
  (∃ o2, (removeDuplicateResolvedDependencies
            [examples.plainBY; examples.plainBY; examples.plainAX; examples.plainBY]).1
         = (removeDuplicateResolvedDependencies [examples.plainBY; examples.plainBY]).1
             ++ examples.plainAX :: o2)
  ∧ (∃ o2, (removeDuplicateResolvedDependencies
              [examples.plainBY; examples.taskAX; examples.plainBY]).1
           = (removeDuplicateResolvedDependencies [examples.plainBY]).1
               ++ examples.taskAX :: o2).
Proof.
  split.
  - apply (proj1 (proj2 (proj2 (removeDuplicate_keeps_order _)))
             [examples.plainBY; examples.plainBY] examples.plainAX [examples.plainBY]);
      [reflexivity|].
    intros x Hx. apply elem_of_cons in Hx as [->|Hx]; [vm_compute; discriminate|].
    apply elem_of_cons in Hx as [->|Hx]; [vm_compute; discriminate|].
    apply elem_of_nil in Hx as [].
  - apply (proj2 (proj2 (proj2 (removeDuplicate_keeps_order _)))
             (valid_BY_task_BY)
             [examples.plainBY] examples.taskAX [examples.plainBY]);
      [reflexivity|].
    intros x Hx [HU _]. apply elem_of_cons in Hx as [->|Hx]; [discriminate HU|].
    apply elem_of_nil in Hx as [].
Defined.

(** C4. The first entry with each URI and digest should appear in the
    output, and on the entries with the URIs 0xFF and 0xFE it does not:
    the URIs differ, and both are marshalled as the replacement rune, so
    that the second entry, the first one with its URI and digest, is taken
    for a duplicate and lost. The comment of lines 151 to 156 wants entries
    ignored that have the same URI and digest; these two have not. *)
Lemma removeDuplicate_loses_first_of_pair :
  v1.URI examples.rawFF ≠ v1.URI examples.rawFE
  ∧ identityKey examples.rawFF = identityKey examples.rawFE
  ∧ removeDuplicateResolvedDependencies [examples.rawFF; examples.rawFE]
    = ([examples.rawFF], None)
  ∧ examples.rawFE ∉ (removeDuplicateResolvedDependencies [examples.rawFF; examples.rawFE]).1.
Proof.
  split; [vm_compute; discriminate|]. split; [vm_compute; reflexivity|].
  split; [vm_compute; reflexivity|].
  intros Hin. rewrite removeDuplicate_emitted in Hin.
  change (examples.rawFE ∈ [examples.rawFF]) in Hin.
  apply list_elem_of_singleton in Hin. discriminate Hin.
Qed.

(** C5. The deduplicator always succeeds, and on its own output it returns
    that output unchanged. *)
Theorem removeDuplicate_idempotent (l : list v1.ResourceDescriptor) :
  (removeDuplicateResolvedDependencies l).2 = None
  ∧ removeDuplicateResolvedDependencies (removeDuplicateResolvedDependencies l).1
    = ((removeDuplicateResolvedDependencies l).1, None).
Proof.
  rewrite !removeDuplicate_emitted. simpl. by rewrite emitted_idemp.
Qed.

Section digests.

#[local] Instance keyLe_total : Total json.keyLe.
Proof. intros p q. apply String.leb_total. Qed.

(** The entries of a digest set are marshalled in the order of their keys. *)
Lemma sortedEntries_sorted (m : DigestSet) : Sorted json.keyLe (json.sortedEntries m).
Proof. apply Sorted_merge_sort, _. Qed.

Lemma sortedEntries_perm (m : DigestSet) : json.sortedEntries m ≡ₚ map_to_list m.
Proof. apply merge_sort_Permutation. Qed.

Lemma digestOfInserts_list_to_map (kvs : list (string * string)) :
  digestOfInserts kvs = list_to_map (reverse kvs).
Proof.
  assert (∀ l : list (string * string),
             digestOfInserts (reverse l) = list_to_map l) as Hrev.
  { unfold digestOfInserts. induction l as [|kv l IH]; [done|].
    rewrite reverse_cons, foldl_app. simpl. by rewrite IH. }
  by rewrite <- Hrev, reverse_involutive.
Qed.

(** The order of the assignments does not show in the digest set. *)
Lemma digestOfInserts_perm (kvs1 kvs2 : list (string * string)) :
  NoDup kvs1.*1 → kvs1 ≡ₚ kvs2 → digestOfInserts kvs1 = digestOfInserts kvs2.
Proof.
  intros Hnd Hp. rewrite !digestOfInserts_list_to_map.
  apply list_to_map_proper.
  - by rewrite fmap_reverse, reverse_Permutation.
  - by rewrite !reverse_Permutation.
Qed.

(** [strings.Compare] is a total order on the keys. *)
Lemma compare_not_Gt_trans (s1 : string) : ∀ s2 s3,
  String.compare s1 s2 ≠ Gt → String.compare s2 s3 ≠ Gt → String.compare s1 s3 ≠ Gt.
Proof.
  induction s1 as [|a s1 IH]; intros [|b s2] [|c s3]; simpl; try done.
  unfold Ascii.compare.
  destruct (N.compare_spec (N_of_ascii a) (N_of_ascii b)) as [Hab|Hab|Hab];
    destruct (N.compare_spec (N_of_ascii b) (N_of_ascii c)) as [Hbc|Hbc|Hbc];
    destruct (N.compare_spec (N_of_ascii a) (N_of_ascii c)) as [Hac|Hac|Hac];
    try done; try lia; eauto.
Qed.

Lemma leb_not_Gt (s1 s2 : string) : String.leb s1 s2 = true ↔ String.compare s1 s2 ≠ Gt.
Proof. unfold String.leb. destruct (String.compare s1 s2); split; done. Qed.

#[local] Instance keyLe_trans : Transitive json.keyLe.
Proof.
  intros p q r. unfold json.keyLe. rewrite !leb_not_Gt. apply compare_not_Gt_trans.
Qed.

(** Entries with distinct keys that are not told apart by their keys are
    equal. *)
Lemma entries_same_key (es : list (string * string)) (p q : string * string) :
  NoDup es.*1 → p ∈ es → q ∈ es → p.1 = q.1 → p = q.
Proof.
  induction es as [|e es IH]; intros Hnd Hp Hq Hk; [by apply elem_of_nil in Hp|].
  rewrite fmap_cons in Hnd. apply NoDup_cons in Hnd as [Hne Hnd].
  apply elem_of_cons in Hp as [->|Hp]; apply elem_of_cons in Hq as [->|Hq].
  - done.
  - exfalso. apply Hne. rewrite Hk. apply list_elem_of_fmap. by exists q.
  - exfalso. apply Hne. rewrite <- Hk. apply list_elem_of_fmap. by exists p.
  - by apply IH.
Qed.

(** Sorting by key forgets the order in which the entries came. *)
Lemma merge_sort_ranged (es1 es2 : list (string * string)) :
  NoDup es1.*1 → es1 ≡ₚ es2 →
  merge_sort json.keyLe es1 = merge_sort json.keyLe es2.
Proof.
  intros Hnd Hp. apply (Sorted_unique_strong json.keyLe).
  - intros p q Hp1 Hq2 Hpq Hqp.
    rewrite merge_sort_Permutation in Hp1. rewrite merge_sort_Permutation, <- Hp in Hq2.
    apply (entries_same_key es1); [done..|]. by apply String.leb_antisym.
  - apply Sorted_merge_sort, _.
  - apply Sorted_merge_sort, _.
  - by rewrite !merge_sort_Permutation.
Qed.

Lemma encodeRanged_perm (es1 es2 : list (string * string)) :
  NoDup es1.*1 → es1 ≡ₚ es2 → json.encodeRanged es1 = json.encodeRanged es2.
Proof. intros Hnd Hp. unfold json.encodeRanged. by rewrite (merge_sort_ranged es1 es2). Qed.

(** Whatever order ranging over the digest yields, the bytes are those of
    [json.Marshal]. *)
Lemma MarshalRanged_any_order (es : list (string * string)) (v : v1.ResourceDescriptor) :
  es ≡ₚ map_to_list (v1.Digest v) → json.MarshalRanged es v = json.Marshal v.
Proof.
  intros Hp. unfold json.Marshal, json.MarshalRanged.
  rewrite (encodeRanged_perm es (map_to_list (v1.Digest v))); [done| |done].
  rewrite Hp. apply NoDup_fst_map_to_list.
Qed.

(** The assignments of distinct keys are the entries of the digest set. *)
Lemma digestOfInserts_entries (kvs : list (string * string)) :
  NoDup kvs.*1 → kvs ≡ₚ map_to_list (digestOfInserts kvs).
Proof.
  intros Hnd. rewrite digestOfInserts_list_to_map.
  rewrite map_to_list_to_map; [by rewrite reverse_Permutation|].
  by rewrite fmap_reverse, reverse_Permutation.
Qed.

End digests.

(** C9. Two descriptors with one URI whose digest sets were filled with the
    same entries in different orders have the same identity key: whatever
    order ranging over each digest yields, that of the assignments
    included, [json.Marshal] sorts the entries by key and writes the same
    bytes; the deduplicator takes the later descriptor, when it is not
    named [task] or [pipeline], for a duplicate of the earlier. *)
Theorem removeDuplicate_digest_order
    (uri n1 n2 : string) (kvs1 kvs2 : list (string * string)) :
  NoDup kvs1.*1 → kvs1 ≡ₚ kvs2 →
  let d1 := {| v1.Name := n1; v1.URI := uri; v1.Digest := digestOfInserts kvs1 |} in
  let d2 := {| v1.Name := n2; v1.URI := uri; v1.Digest := digestOfInserts kvs2 |} in
  let rDep1 := {| v1.Name := ""; v1.URI := uri; v1.Digest := digestOfInserts kvs1 |} in
  let rDep2 := {| v1.Name := ""; v1.URI := uri; v1.Digest := digestOfInserts kvs2 |} in
  (∀ es1 es2,
      es1 ≡ₚ map_to_list (digestOfInserts kvs1) →
      es2 ≡ₚ map_to_list (digestOfInserts kvs2) →
      json.MarshalRanged es1 rDep1 = json.MarshalRanged es2 rDep2
      ∧ (json.MarshalRanged es1 rDep1).1 = identityKey d1)
  ∧ json.MarshalRanged kvs1 rDep1 = json.MarshalRanged kvs2 rDep2
  ∧ json.encodeRanged kvs1 = json.encodeRanged kvs2
  ∧ identityKey d1 = identityKey d2
  ∧ json.sortedEntries (v1.Digest d1) = json.sortedEntries (v1.Digest d2)
  ∧ Sorted json.keyLe (json.sortedEntries (v1.Digest d1))
  ∧ (isConfigName n2 = false →
     ∀ l1 l2 l3,
       removeDuplicateResolvedDependencies (l1 ++ d1 :: l2 ++ d2 :: l3)
       = removeDuplicateResolvedDependencies (l1 ++ d1 :: l2 ++ l3)).
Proof.
  intros Hnd Hp d1 d2 rDep1 rDep2.
  assert (digestOfInserts kvs1 = digestOfInserts kvs2) as HD
    by by apply digestOfInserts_perm.
  assert (∀ es1 es2,
            es1 ≡ₚ map_to_list (digestOfInserts kvs1) →
            es2 ≡ₚ map_to_list (digestOfInserts kvs2) →
            json.MarshalRanged es1 rDep1 = json.MarshalRanged es2 rDep2) as Hany.
  { intros es1 es2 H1 H2. unfold json.MarshalRanged, rDep1, rDep2.
    cbn [v1.URI v1.Digest v1.Name].
    rewrite (encodeRanged_perm es1 es2), HD; [done| |].
    - rewrite H1. apply NoDup_fst_map_to_list.
    - by rewrite H1, H2, HD. }
  split; [|split; [|split; [|split; [|split; [|split]]]]].
  - intros es1 es2 H1 H2. split; [by apply Hany|].
    unfold identityKey. by rewrite <- (MarshalRanged_any_order es1).
  - apply Hany; apply digestOfInserts_entries; [done|by rewrite <- Hp].
  - by apply encodeRanged_perm.
  - by apply identityKey_fields.
  - cbn [v1.Digest d1 d2]. by rewrite HD.
  - apply sortedEntries_sorted.
  - intros Hn l1 l2 l3. rewrite !removeDuplicate_emitted. f_equal.
    apply emitted_drop; [by apply identityKey_fields|done].
Qed.

Lemma removeDuplicate_digest_order_witness :
  let d1 := {| v1.Name := "task"; v1.URI := "a";
               v1.Digest := digestOfInserts [("sha256", "x"); ("sha1", "y")] |} in
  let d2 := {| v1.Name := ""; v1.URI := "a";
               v1.Digest := digestOfInserts [("sha1", "y"); ("sha256", "x")] |} in
  json.MarshalRanged [("sha256", "x"); ("sha1", "y")]
    {| v1.Name := ""; v1.URI := "a";
       v1.Digest := digestOfInserts [("sha256", "x"); ("sha1", "y")] |}
  = json.MarshalRanged [("sha1", "y"); ("sha256", "x")]
      {| v1.Name := ""; v1.URI := "a";
         v1.Digest := digestOfInserts [("sha1", "y"); ("sha256", "x")] |}
  ∧ identityKey d1 = identityKey d2
  ∧ removeDuplicateResolvedDependencies ([] ++ d1 :: [] ++ d2 :: [])
    = removeDuplicateResolvedDependencies ([] ++ d1 :: [] ++ []).
Proof.
  intros d1 d2.
  destruct (removeDuplicate_digest_order "a" "task" ""
              [("sha256", "x"); ("sha1", "y")] [("sha1", "y"); ("sha256", "x")])
    as (_ & H0 & _ & H1 & _ & _ & H2).
  - apply (bool_decide_unpack _). vm_compute. exact I.
  - apply perm_swap.
  - split; [exact H0|]. split; [exact H1|]. apply (H2 eq_refl [] [] []).
Defined.

(** ** The loop over the pipeline tasks, stage by stage *)

Section stages.
Context `{External} `{!Material}.
Implicit Types (pro : PipelineRunObject) (t : PipelineTask) (tr : TaskRunObject).
Implicit Types (rds : list v1.ResourceDescriptor) (log : list string) (e : error).

Lemma loop_skip pro t rest rds log :
  executedTaskRun pro t = None →
  fromPipelineTaskLoop pro (t :: rest) rds log
  = fromPipelineTaskLoop pro rest rds (log ++ [notFoundMessage (pt_Name t)]).
Proof.
  unfold executedTaskRun. simpl.
  destruct (pro_GetTaskRunFromTask pro (pt_Name t)) as [tr|]; [|done].
  by destruct (trs_CompletionTime (tro_Status tr)).
Qed.

Lemma loop_error pro t tr rest rds log e :
  executedTaskRun pro t = Some tr → imagesError tr = Some e →
  fromPipelineTaskLoop pro (t :: rest) rds log = (([], Some e), log).
Proof.
  unfold executedTaskRun, imagesError. simpl.
  destruct (pro_GetTaskRunFromTask pro (pt_Name t)) as [tr'|]; [|done].
  destruct (trs_CompletionTime (tro_Status tr')); [|done]. intros [= ->].
  destruct (FromStepImages _) as [ms [e1|]]; simpl; [by intros [= ->]|].
  destruct (FromSidecarImages _) as [ms' [e2|]]; simpl; [by intros [= ->]|done].
Qed.

Lemma loop_ok pro t tr rest rds log :
  executedTaskRun pro t = Some tr → imagesError tr = None →
  fromPipelineTaskLoop pro (t :: rest) rds log
  = fromPipelineTaskLoop pro rest
      ((rds ++ configDescriptor pipelineTaskConfigName (trs_Provenance (tro_Status tr)))
         ++ convertMaterialsToResolvedDependencies
              (([] ++ (FromStepImages (trs_Steps (tro_Status tr))).1)
                 ++ (FromSidecarImages (trs_Sidecars (tro_Status tr))).1) "")
      log.
Proof.
  unfold executedTaskRun, imagesError. simpl.
  destruct (pro_GetTaskRunFromTask pro (pt_Name t)) as [tr'|]; [|done].
  destruct (trs_CompletionTime (tro_Status tr')); [|done]. intros [= ->].
  destruct (FromStepImages _) as [ms [e1|]]; simpl; [done|].
  by destruct (FromSidecarImages _) as [ms' [e2|]].
Qed.

(** The three ways through one round of the loop. *)
Lemma loop_cases pro t :
  executedTaskRun pro t = None
  ∨ (∃ tr e, executedTaskRun pro t = Some tr ∧ imagesError tr = Some e)
  ∨ (∃ tr, executedTaskRun pro t = Some tr ∧ imagesError tr = None).
Proof.
  destruct (executedTaskRun pro t) as [tr|]; [|by left]. right.
  destruct (imagesError tr) as [e|] eqn:He; [left|right]; eauto.
Qed.

(** The result pair does not depend on the lines logged so far. *)
Lemma loop_log pro ts rds log log' :
  (fromPipelineTaskLoop pro ts rds log).1 = (fromPipelineTaskLoop pro ts rds log').1.
Proof.
  revert rds log log'. induction ts as [|t ts IH]; intros rds log log'; [done|].
  destruct (loop_cases pro t) as [Hs|[(tr & e & Hx & He)|(tr & Hx & He)]].
  - rewrite !loop_skip by done. apply IH.
  - by rewrite !(loop_error _ _ _ _ _ _ _ Hx He).
  - rewrite !(loop_ok _ _ _ _ _ _ Hx He). apply IH.
Qed.

Lemma loop_skip_middle pro ts1 t ts2 rds log :
  executedTaskRun pro t = None →
  (fromPipelineTaskLoop pro (ts1 ++ t :: ts2) rds log).1
  = (fromPipelineTaskLoop pro (ts1 ++ ts2) rds log).1.
Proof.
  intros Hs. revert rds log. induction ts1 as [|t1 ts1 IH]; intros rds log.
  - simpl app. rewrite loop_skip by done. apply loop_log.
  - rewrite <- !app_comm_cons.
    destruct (loop_cases pro t1) as [Hs1|[(tr & e & Hx & He)|(tr & Hx & He)]].
    + rewrite !loop_skip by done. apply IH.
    + by rewrite !(loop_error _ _ _ _ _ _ _ Hx He).
    + rewrite !(loop_ok _ _ _ _ _ _ Hx He). apply IH.
Qed.

Lemma loop_first_error pro ts1 t ts2 rds log e :
  Forall (λ t', stageError pro t' = None) ts1 → stageError pro t = Some e →
  (fromPipelineTaskLoop pro (ts1 ++ t :: ts2) rds log).1 = ([], Some e).
Proof.
  intros Hok He. revert rds log.
  induction Hok as [|t1 ts1 H1 _ IH]; intros rds log.
  - simpl app. unfold stageError in He.
    destruct (executedTaskRun pro t) as [tr|] eqn:Hx; [|done].
    by rewrite (loop_error _ _ _ _ _ _ _ Hx He).
  - rewrite <- app_comm_cons. unfold stageError in H1.
    destruct (executedTaskRun pro t1) as [tr|] eqn:Hx.
    + rewrite (loop_ok _ _ _ _ _ _ Hx H1). apply IH.
    + rewrite loop_skip by done. apply IH.
Qed.

(** An error of the loop comes with the nil slice. *)
Lemma loop_error_nil pro ts rds log e :
  (fromPipelineTaskLoop pro ts rds log).1.2 = Some e →
  (fromPipelineTaskLoop pro ts rds log).1.1 = [].
Proof.
  revert rds log. induction ts as [|t ts IH]; intros rds log; [done|].
  destruct (loop_cases pro t) as [Hs|[(tr & e' & Hx & He)|(tr & Hx & He)]].
  - rewrite !loop_skip by done. apply IH.
  - by rewrite !(loop_error _ _ _ _ _ _ _ Hx He).
  - rewrite !(loop_ok _ _ _ _ _ _ Hx He). apply IH.
Qed.

(** The loop reads of the pipeline run object only its task runs. *)
Lemma loop_same_task_runs pro pro' ts rds log :
  pro_GetTaskRunFromTask pro = pro_GetTaskRunFromTask pro' →
  fromPipelineTaskLoop pro ts rds log = fromPipelineTaskLoop pro' ts rds log.
Proof.
  intros Hg. revert rds log. induction ts as [|t ts IH]; intros rds log; [done|].
  simpl. rewrite <- Hg.
  destruct (pro_GetTaskRunFromTask pro (pt_Name t)) as [tr|]; [|apply IH].
  destruct (trs_CompletionTime (tro_Status tr)); [|apply IH].
  destruct (FromStepImages _) as [ms [e1|]]; [done|].
  destruct (FromSidecarImages _) as [ms' [e2|]]; [done|]. apply IH.
Qed.

End stages.

(** ** The resolvers *)

(** C6. On a status with the top level reference git.example/repo, sha1:abc,
    one material reg/img, sha256:d1 from the step images and one material
    param/foo, sha256:d2 from the parameters and results, [TaskRun] returns,
    in this order, the descriptor named [task] of the reference, the
    unnamed descriptor of the step image and the descriptor of the input
    named [inputs/result]. *)
Theorem TaskRun_example `{External} `{!Material} (ctx : GoContext) (tro : TaskRunObject) :
  trs_Provenance (tro_Status tro)
  = Some {| prov_RefSource :=
              Some {| ref_URI := "git.example/repo";
                      ref_Digest := {[ "sha1" := "abc" ]} |} |} →
  FromStepImages (trs_Steps (tro_Status tro))
  = ([ {| common.URI := "reg/img"; common.Digest := {[ "sha256" := "d1" ]} |} ], None) →
  FromSidecarImages (trs_Sidecars (tro_Status tro)) = ([], None) →
  FromTaskParamsAndResults ctx tro
  = [ {| common.URI := "param/foo"; common.Digest := {[ "sha256" := "d2" ]} |} ] →
  FromTaskResources ctx tro = [] →
  TaskRun ctx tro
  = ([ {| v1.Name := "task"; v1.URI := "git.example/repo";
          v1.Digest := {[ "sha1" := "abc" ]} |};
       {| v1.Name := ""; v1.URI := "reg/img"; v1.Digest := {[ "sha256" := "d1" ]} |};
       {| v1.Name := "inputs/result"; v1.URI := "param/foo";
          v1.Digest := {[ "sha256" := "d2" ]} |} ],
     None).
Proof.
  intros Hp Hsteps Hsidecars Hin Hres. unfold TaskRun.
  rewrite Hp, Hsteps, Hsidecars, Hin, Hres. vm_compute. reflexivity.
Qed.

Lemma TaskRun_example_witness :
  @TaskRun examples.external examples.material [examples.paramFoo]
    (examples.taskRun (Some examples.gitRepo) [Some examples.regImg] [] true)
  = ([ {| v1.Name := "task"; v1.URI := "git.example/repo";
          v1.Digest := {[ "sha1" := "abc" ]} |};
       {| v1.Name := ""; v1.URI := "reg/img"; v1.Digest := {[ "sha256" := "d1" ]} |};
       {| v1.Name := "inputs/result"; v1.URI := "param/foo";
          v1.Digest := {[ "sha256" := "d2" ]} |} ],
     None).
Proof.
  apply (@TaskRun_example examples.external examples.material); reflexivity.
Defined.

(** C7. When the extraction of the step or sidecar images fails, [TaskRun]
    returns that error and the nil slice; when it fails on a stage of a
    pipeline run, no earlier stage having failed, [PipelineRun] returns that
    error and the nil slice; and neither resolver ever returns an error
    together with descriptors. *)
Theorem extraction_error_no_partial_list `{External} `{!Material} :
  (∀ ctx tro ms e,
      FromStepImages (trs_Steps (tro_Status tro)) = (ms, Some e) →
      TaskRun ctx tro = ([], Some e))
  ∧ (∀ ctx tro ms ms' e,
      FromStepImages (trs_Steps (tro_Status tro)) = (ms, None) →
      FromSidecarImages (trs_Sidecars (tro_Status tro)) = (ms', Some e) →
      TaskRun ctx tro = ([], Some e))
  ∧ (∀ ctx pro slsaconfig pSpec ts1 t ts2 e,
      prs_PipelineSpec (pro_Status pro) = Some pSpec →
      ps_Tasks pSpec ++ ps_Finally pSpec = ts1 ++ t :: ts2 →
      Forall (λ t', stageError pro t' = None) ts1 →
      stageError pro t = Some e →
      (PipelineRun ctx pro slsaconfig).1 = ([], Some e))
  ∧ (∀ ctx tro e, (TaskRun ctx tro).2 = Some e → (TaskRun ctx tro).1 = [])
  ∧ (∀ ctx pro slsaconfig e,
      (PipelineRun ctx pro slsaconfig).1.2 = Some e →
      (PipelineRun ctx pro slsaconfig).1.1 = []).
Proof.
  split; [|split; [|split; [|split]]].
  - intros ctx tro ms e Hs. unfold TaskRun. by rewrite Hs.
  - intros ctx tro ms ms' e Hs Hc. unfold TaskRun. by rewrite Hs, Hc.
  - intros ctx pro cfg pSpec ts1 t ts2 e Hspec Hts Hok He.
    unfold PipelineRun, fromPipelineTask. rewrite Hspec, Hts.
    pose proof (loop_first_error pro ts1 t ts2 [] [] e Hok He) as Hl.
    destruct (fromPipelineTaskLoop pro (ts1 ++ t :: ts2) [] []) as [[rds err] log].
    simpl in Hl. by injection Hl as -> ->.
  - intros ctx tro e. unfold TaskRun.
    destruct (FromStepImages _) as [ms [e1|]]; [done|].
    destruct (FromSidecarImages _) as [ms' [e2|]]; [done|].
    by rewrite removeDuplicate_emitted.
  - intros ctx pro cfg e. unfold PipelineRun.
    destruct (fromPipelineTask pro) as [[rds [e1|]] log]; [done|].
    by rewrite removeDuplicate_emitted.
Qed.

Lemma extraction_error_no_partial_list_witness :
  @TaskRun examples.external examples.material [examples.paramFoo]
    (examples.taskRun (Some examples.gitRepo) [Some examples.regImg; None] [] true)
  = ([], Some "malformed image of a step")
  ∧ @TaskRun examples.external examples.material [examples.paramFoo]
      (examples.taskRun (Some examples.gitRepo) [Some examples.regImg] [None] true)
    = ([], Some "malformed image of a sidecar")
  ∧ (@PipelineRun examples.external examples.material [examples.paramFoo]
       (examples.pipelineRun true [Some examples.regImg; None]) tt).1
    = ([], Some "malformed image of a step").
Proof.
  destruct (@extraction_error_no_partial_list examples.external examples.material)
    as (H1 & H2 & H3 & _).
  split; [|split].
  - apply (H1 _ _ []). reflexivity.
  - apply (H2 _ _ [examples.regImg] []); reflexivity.
  - eapply (H3 _ _ _ _ [] {| pt_Name := "A" |}); [reflexivity..|constructor|reflexivity].
Defined.

(** C8. A declared stage without a task run, or with a task run that has
    no completion time, gives no descriptor and no error: [fromPipelineTask]
    returns what it returns for the other stages alone, and so does
    [PipelineRun], the input materials of the pipeline run being the same. *)
Theorem skipped_stage_contributes_nothing `{External} `{!Material}
    (pro : PipelineRunObject) (pSpec : PipelineSpec)
    (ts1 ts2 : list PipelineTask) (t : PipelineTask) :
  prs_PipelineSpec (pro_Status pro) = Some pSpec →
  ps_Tasks pSpec ++ ps_Finally pSpec = ts1 ++ t :: ts2 →
  (pro_GetTaskRunFromTask pro (pt_Name t) = None
   ∨ ∃ tr, pro_GetTaskRunFromTask pro (pt_Name t) = Some tr
           ∧ trs_CompletionTime (tro_Status tr) = None) →
  let pro' := withPipelineTasks pro (ts1 ++ ts2) in
  (fromPipelineTask pro).1 = (fromPipelineTask pro').1
  ∧ ∀ ctx slsaconfig,
      FromPipelineParamsAndResults ctx pro slsaconfig
      = FromPipelineParamsAndResults ctx pro' slsaconfig →
      (PipelineRun ctx pro slsaconfig).1 = (PipelineRun ctx pro' slsaconfig).1.
Proof.
  intros Hspec Hts Hskip pro'.
  assert ((fromPipelineTask pro).1 = (fromPipelineTask pro').1) as Hsame.
  { unfold fromPipelineTask. rewrite Hspec, Hts. simpl. rewrite app_nil_r.
    assert (executedTaskRun pro t = None) as Hx.
    { unfold executedTaskRun. destruct Hskip as [->|(tr & -> & ->)]; done. }
    rewrite (loop_skip_middle pro ts1 t ts2 [] [] Hx).
    by rewrite (loop_same_task_runs pro pro'). }
  split; [done|]. intros ctx cfg Hin. unfold PipelineRun. rewrite <- Hin.
  destruct (fromPipelineTask pro) as [[rds err] log].
  destruct (fromPipelineTask pro') as [[rds' err'] log'].
  simpl in Hsame. injection Hsame as <- <-. destruct err; [done|].
  by rewrite !removeDuplicate_emitted.
Qed.

Lemma skipped_stage_contributes_nothing_witness :
  let pro := examples.pipelineRun true [Some examples.regImg] in
  let proAC := @withPipelineTasks examples.external pro
                 ([ {| pt_Name := "A" |} ] ++ [ {| pt_Name := "C" |} ]) in
  let proAB := @withPipelineTasks examples.external pro
                 ([ {| pt_Name := "A" |}; {| pt_Name := "B" |} ] ++ []) in
  (@PipelineRun examples.external examples.material [examples.paramFoo] pro tt).1
  = (@PipelineRun examples.external examples.material [examples.paramFoo] proAC tt).1
  ∧ (@PipelineRun examples.external examples.material [examples.paramFoo] pro tt).1
    = (@PipelineRun examples.external examples.material [examples.paramFoo] proAB tt).1.
Proof.
  intros pro proAC proAB. split.
  - eapply (@skipped_stage_contributes_nothing examples.external examples.material
              pro _ _ _ {| pt_Name := "B" |}); [reflexivity..| |reflexivity].
    left. reflexivity.
  - eapply (@skipped_stage_contributes_nothing examples.external examples.material
              pro _ _ _ {| pt_Name := "C" |}); [reflexivity..| |reflexivity].
    right. eexists. split; reflexivity.
Defined.

(** C10. On a status without a pipeline spec, [fromPipelineTask] gives no
    descriptor, no error and no log line, and [PipelineRun] returns without
    error the deduplicated list of the descriptor named [pipeline] of the
    top level reference, when there is one, followed by the descriptors of
    the input materials of the pipeline run, named [inputs/result]. *)
Theorem PipelineRun_without_spec `{External} `{!Material}
    (ctx : GoContext) (pro : PipelineRunObject) (slsaconfig : SlsaConfig) :
  prs_PipelineSpec (pro_Status pro) = None →
  fromPipelineTask pro = (([], None), [])
  ∧ PipelineRun ctx pro slsaconfig
    = (((removeDuplicateResolvedDependencies
           (configDescriptor pipelineConfigName (prs_Provenance (pro_Status pro))
              ++ convertMaterialsToResolvedDependencies
                   (FromPipelineParamsAndResults ctx pro slsaconfig) inputResultName)).1,
        None), []).
Proof.
  intros Hspec. unfold PipelineRun, fromPipelineTask. rewrite Hspec.
  split; [done|]. cbn beta iota zeta. rewrite app_nil_r, !removeDuplicate_emitted.
  reflexivity.
Qed.

Lemma PipelineRun_without_spec_witness :
  @PipelineRun examples.external examples.material [examples.paramFoo]
    (examples.pipelineRun false [Some examples.regImg]) tt
  = (([ {| v1.Name := "pipeline"; v1.URI := "git.example/repo";
           v1.Digest := {[ "sha1" := "abc" ]} |};
        {| v1.Name := "inputs/result"; v1.URI := "param/foo";
           v1.Digest := {[ "sha256" := "d2" ]} |} ], None), []).
Proof.
  destruct (@PipelineRun_without_spec examples.external examples.material
              [examples.paramFoo] (examples.pipelineRun false [Some examples.regImg]) tt)
    as [_ ->]; [reflexivity|].
  vm_compute. reflexivity.
Defined.

(** * Further properties *)

(** ** The deduplicator, as a filter *)

Section dedup_more.
Implicit Types (rd a b x y : v1.ResourceDescriptor) (l out : list v1.ResourceDescriptor).
Implicit Types (seen : gmap string bool) (k : string).

Lemma existsb_sameKey earlier rd :
  existsb (λ x, sameKey x rd) earlier = true
  ↔ ∃ x, x ∈ earlier ∧ identityKey x = identityKey rd.
Proof.
  rewrite existsb_exists. unfold sameKey. split.
  - intros (x & Hin & Hk). exists x. split; [by apply list_elem_of_In|].
    by apply bool_decide_eq_true in Hk.
  - intros (x & Hin & Hk). exists x. split; [by apply list_elem_of_In|].
    by apply bool_decide_eq_true.
Qed.

Lemma seen_earlier_emit seen earlier rd :
  (∀ k, isSeen seen k = true ↔ ∃ x, x ∈ earlier ∧ identityKey x = k) →
  ∀ k, isSeen (<[identityKey rd := true]> seen) k = true
       ↔ ∃ x, x ∈ earlier ++ [rd] ∧ identityKey x = k.
Proof.
  intros Hinv k. rewrite isSeen_insert, orb_true_iff, bool_decide_eq_true, Hinv. split.
  - intros [Hk|(x & Hx & Hk)].
    + exists rd. split; [|done]. apply elem_of_app. right. by apply list_elem_of_singleton.
    + exists x. split; [|done]. apply elem_of_app. by left.
  - intros (x & [Hx|Hx]%elem_of_app & Hk).
    + right. by exists x.
    + left. apply list_elem_of_singleton in Hx. by subst.
Qed.

Lemma seen_earlier_skip seen earlier rd :
  (∀ k, isSeen seen k = true ↔ ∃ x, x ∈ earlier ∧ identityKey x = k) →
  isSeen seen (identityKey rd) = true →
  ∀ k, isSeen seen k = true ↔ ∃ x, x ∈ earlier ++ [rd] ∧ identityKey x = k.
Proof.
  intros Hinv Hs k. rewrite Hinv. split.
  - intros (x & Hx & Hk). exists x. split; [|done]. apply elem_of_app. by left.
  - intros (x & [Hx|Hx]%elem_of_app & Hk); [by exists x|].
    apply list_elem_of_singleton in Hx. subst. by apply Hinv.
Qed.

Lemma emitted_keepFirst seen earlier l :
  (∀ k, isSeen seen k = true ↔ ∃ x, x ∈ earlier ∧ identityKey x = k) →
  emitted seen l = keepFirst sameKey earlier l.
Proof.
  revert seen earlier. induction l as [|rd l IH]; intros seen earlier Hinv; [done|].
  cbn [emitted keepFirst].
  assert (existsb (λ x, sameKey x rd) earlier = isSeen seen (identityKey rd)) as Hex.
  { apply eq_true_iff_eq. rewrite existsb_sameKey. symmetry. apply Hinv. }
  rewrite Hex. unfold skips.
  destruct (isSeen seen (identityKey rd)) eqn:Hs, (isConfigName (v1.Name rd)); simpl.
  - f_equal. by apply IH, seen_earlier_emit.
  - by apply IH, seen_earlier_skip.
  - f_equal. by apply IH, seen_earlier_emit.
  - f_equal. by apply IH, seen_earlier_emit.
Qed.

Lemma sameKey_sameFields x y :
  validDescriptor x → validDescriptor y → sameKey x y = sameFields x y.
Proof.
  intros Hx Hy. unfold sameKey, sameFields. apply bool_decide_ext. split.
  - by apply identityKey_inj.
  - intros [? ?]. by apply identityKey_fields.
Qed.

Lemma keepFirst_valid earlier l :
  Forall validDescriptor earlier → Forall validDescriptor l →
  keepFirst sameKey earlier l = keepFirst sameFields earlier l.
Proof.
  revert earlier. induction l as [|rd l IH]; intros earlier He Hl; [done|].
  apply Forall_cons in Hl as [Hrd Hl]. cbn [keepFirst].
  assert (existsb (λ x, sameKey x rd) earlier = existsb (λ x, sameFields x rd) earlier)
    as ->.
  { clear -He Hrd. induction He as [|x earlier Hx _ IHe]; [done|].
    simpl. by rewrite IHe, sameKey_sameFields. }
  rewrite IH; [done| |done]. apply Forall_app. split; [done|]. by apply Forall_singleton.
Qed.

Lemma emitted_key_kept seen l x :
  x ∈ l →
  isSeen seen (identityKey x) = true
  ∨ ∃ y, y ∈ emitted seen l ∧ identityKey y = identityKey x.
Proof.
  revert seen. induction l as [|a l IH]; intros seen Hx; [by apply elem_of_nil in Hx|].
  cbn [emitted]. apply elem_of_cons in Hx as [->|Hx].
  - destruct (skips seen a) eqn:Hsk.
    + left. unfold skips in Hsk. by apply andb_true_iff in Hsk as [? _].
    + right. exists a. split; [by left|done].
  - destruct (skips seen a) eqn:Hsk; [by apply IH|].
    destruct (IH (<[identityKey a := true]> seen) Hx) as [Hs|(y & Hy & Hk)].
    + rewrite isSeen_insert in Hs. apply orb_true_iff in Hs as [Hs|Hs]; [|by left].
      apply bool_decide_eq_true in Hs. right. exists a. split; [by left|done].
    + right. exists y. split; [by right|done].
Qed.

Lemma emitted_unseen_distinct seen l :
  NoDup (identityKey <$> l) →
  (∀ x, x ∈ l → isSeen seen (identityKey x) = false) →
  emitted seen l = l.
Proof.
  revert seen. induction l as [|a l IH]; intros seen Hnd Hun; [done|].
  rewrite fmap_cons in Hnd. apply NoDup_cons in Hnd as [Ha Hnd].
  cbn [emitted]. unfold skips. rewrite (Hun a) by by left. simpl. f_equal.
  apply IH; [done|]. intros x Hx. rewrite isSeen_insert, (Hun x) by by right.
  rewrite orb_false_r. apply bool_decide_eq_false. intros Hk. apply Ha.
  rewrite Hk. apply list_elem_of_fmap. eauto.
Qed.

Lemma emitted_all_config seen l :
  Forall (λ rd, isConfigName (v1.Name rd) = true) l → emitted seen l = l.
Proof.
  intros Hl. revert seen. induction Hl as [|a l Ha _ IH]; intros seen; [done|].
  cbn [emitted]. unfold skips. rewrite Ha, andb_false_r. by rewrite IH.
Qed.

Lemma emitted_all_seen seen l :
  Forall (λ rd, isConfigName (v1.Name rd) = false ∧ isSeen seen (identityKey rd) = true) l →
  emitted seen l = [].
Proof.
  intros Hl. induction Hl as [|a l [Ha Hs] _ IH]; [done|].
  cbn [emitted]. unfold skips. by rewrite Ha, Hs.
Qed.

(** Without config names the emitted entries have keys that are new and
    pairwise distinct. *)
Lemma emitted_plain_keys seen l :
  Forall (λ rd, isConfigName (v1.Name rd) = false) l →
  NoDup (identityKey <$> emitted seen l)
  ∧ ∀ y, y ∈ emitted seen l → isSeen seen (identityKey y) = false.
Proof.
  intros Hl. revert seen. induction Hl as [|a l Ha _ IH]; intros seen.
  - split; [constructor|]. intros y Hy. by apply elem_of_nil in Hy.
  - cbn [emitted]. unfold skips. rewrite Ha, andb_true_r.
    destruct (isSeen seen (identityKey a)) eqn:Hs; [apply IH|].
    destruct (IH (<[identityKey a := true]> seen)) as [Hnd Hun]. split.
    + apply NoDup_cons. split; [|done].
      intros (y & Hk & Hy)%list_elem_of_fmap. specialize (Hun y Hy).
      rewrite isSeen_insert, Hk, bool_decide_eq_true_2 in Hun; done.
    + intros y [->|Hy]%elem_of_cons; [done|]. specialize (Hun y Hy).
      rewrite isSeen_insert in Hun. by apply orb_false_iff in Hun as [_ ?].
Qed.

(** With a config name on the first entry at most, the output has pairwise
    distinct keys. *)
Lemma emitted_head_config c l :
  (length c ≤ 1)%nat → Forall (λ rd, isConfigName (v1.Name rd) = false) l →
  NoDup (identityKey <$> emitted ∅ (c ++ l)).
Proof.
  intros Hc Hl. destruct c as [|x [|??]]; [by apply emitted_plain_keys| |simpl in Hc; lia].
  cbn [app emitted]. unfold skips. rewrite isSeen_empty. simpl.
  destruct (emitted_plain_keys (<[identityKey x := true]> ∅) l Hl) as [Hnd Hun].
  apply NoDup_cons. split; [|done].
  intros (y & Hk & Hy)%list_elem_of_fmap. specialize (Hun y Hy).
  rewrite isSeen_insert, Hk, bool_decide_eq_true_2 in Hun; done.
Qed.

Lemma NoDup_keys_fields l i j a b :
  NoDup (identityKey <$> l) → (i < j)%nat →
  l !! i = Some a → l !! j = Some b →
  ¬ (v1.URI a = v1.URI b ∧ v1.Digest a = v1.Digest b).
Proof.
  intros Hnd Hij Ha Hb [HU HD].
  assert (i = j); [|lia].
  apply (NoDup_lookup _ i j (identityKey a) Hnd).
  - by rewrite list_lookup_fmap, Ha.
  - rewrite list_lookup_fmap, Hb. simpl. f_equal. symmetry. by apply identityKey_fields.
Qed.

End dedup_more.

Lemma removeDuplicate_is_filter_aux (l : list v1.ResourceDescriptor) :
  removeDuplicateResolvedDependencies l = (keepFirst sameKey [] l, None).
Proof.
  rewrite removeDuplicate_emitted. f_equal. apply emitted_keepFirst.
  intros k. rewrite isSeen_empty. split; [done|].
  intros (x & Hx & _). by apply elem_of_nil in Hx.
Qed.

(** X1. The deduplicator is a filter: it keeps an entry exactly when the
    entry bears a config name or no entry before it, kept or not, has the
    same identity key. *)
Theorem removeDuplicate_is_filter (l : list v1.ResourceDescriptor) :
  removeDuplicateResolvedDependencies l = (keepFirst sameKey [] l, None).
Proof. apply removeDuplicate_is_filter_aux. Qed.

(** X2. On descriptors whose URIs and digest entries are valid UTF-8 the
    deduplicator keeps an entry exactly when the entry bears a config name
    or no entry before it has the same URI and the same digest. *)
Theorem removeDuplicate_is_filter_by_fields (l : list v1.ResourceDescriptor) :
  Forall validDescriptor l →
  removeDuplicateResolvedDependencies l = (keepFirst sameFields [] l, None).
Proof.
  intros Hl. rewrite removeDuplicate_is_filter_aux. f_equal.
  by apply keepFirst_valid.
Qed.

Lemma valid_examples :
  Forall validDescriptor
    [examples.plainAX; examples.plainBY; examples.taskAX; examples.plainAX; examples.plainBY].
Proof.
  repeat apply Forall_cons_2; [apply validDescriptor_sha256; reflexivity..|apply Forall_nil_2].
Qed.

Lemma removeDuplicate_is_filter_by_fields_witness :
  removeDuplicateResolvedDependencies
    [examples.plainAX; examples.plainBY; examples.taskAX; examples.plainAX; examples.plainBY]
  = ([examples.plainAX; examples.plainBY; examples.taskAX], None).
Proof.
  rewrite (removeDuplicate_is_filter_by_fields _ valid_examples). reflexivity.
Defined.

(** X3. Descriptors of valid UTF-8 with the same identity key have the same
    URI and the same digest: on them the marshalled bytes are a faithful
    key. *)
Theorem identityKey_injective (a b : v1.ResourceDescriptor) :
  validDescriptor a → validDescriptor b → identityKey a = identityKey b →
  v1.URI a = v1.URI b ∧ v1.Digest a = v1.Digest b.
Proof. apply identityKey_inj. Qed.

Lemma identityKey_injective_witness :
  v1.URI examples.taskAX = v1.URI examples.plainAX
  ∧ v1.Digest examples.taskAX = v1.Digest examples.plainAX.
Proof.
  apply identityKey_injective;
    [apply validDescriptor_sha256; reflexivity..|vm_compute; reflexivity].
Defined.

(** X4. An input whose identity keys are pairwise distinct is returned as
    it is. *)
Theorem removeDuplicate_distinct_unchanged (l : list v1.ResourceDescriptor) :
  NoDup (identityKey <$> l) → removeDuplicateResolvedDependencies l = (l, None).
Proof.
  intros Hnd. rewrite removeDuplicate_emitted. f_equal.
  apply emitted_unseen_distinct; [done|]. intros x _. apply isSeen_empty.
Qed.

Lemma removeDuplicate_distinct_unchanged_witness :
  removeDuplicateResolvedDependencies [examples.plainAX; examples.plainBY]
  = ([examples.plainAX; examples.plainBY], None).
Proof.
  apply removeDuplicate_distinct_unchanged.
  apply (bool_decide_unpack _). vm_compute. exact I.
Defined.

(** X5. An input all of whose entries are named [task] or [pipeline] is
    returned as it is, whatever URIs and digests its entries share. *)
Theorem removeDuplicate_config_unchanged (l : list v1.ResourceDescriptor) :
  Forall (λ rd, isConfigName (v1.Name rd) = true) l →
  removeDuplicateResolvedDependencies l = (l, None).
Proof. intros Hl. rewrite removeDuplicate_emitted. f_equal. by apply emitted_all_config. Qed.

Lemma removeDuplicate_config_unchanged_witness :
  removeDuplicateResolvedDependencies samples.tasksAX = (samples.tasksAX, None).
Proof.
  apply removeDuplicate_config_unchanged.
  repeat apply Forall_cons_2; [reflexivity..|apply Forall_nil_2].
Defined.

Lemma removeDuplicate_keeps_every_key_aux
    (l : list v1.ResourceDescriptor) (x : v1.ResourceDescriptor) :
  x ∈ l →
  ∃ y, y ∈ (removeDuplicateResolvedDependencies l).1 ∧ identityKey y = identityKey x.
Proof.
  intros Hx. rewrite removeDuplicate_emitted. simpl.
  destruct (emitted_key_kept ∅ l x Hx) as [Hs|?]; [|done].
  by rewrite isSeen_empty in Hs.
Qed.

(** X6. No identity key is lost: every entry of the input has its key on
    an entry of the output. *)
Theorem removeDuplicate_keeps_every_key
    (l : list v1.ResourceDescriptor) (x : v1.ResourceDescriptor) :
  x ∈ l →
  ∃ y, y ∈ (removeDuplicateResolvedDependencies l).1 ∧ identityKey y = identityKey x.
Proof. apply removeDuplicate_keeps_every_key_aux. Qed.

Lemma removeDuplicate_keeps_every_key_witness :
  ∃ y, y ∈ (removeDuplicateResolvedDependencies
              [examples.taskAX; examples.plainBY; examples.plainAX]).1
       ∧ identityKey y = identityKey examples.plainAX.
Proof.
  apply removeDuplicate_keeps_every_key.
  apply elem_of_cons. right. apply elem_of_cons. right. apply elem_of_cons. by left.
Defined.

(** X7. The output for a longer input starts with the output for the
    shorter one: what comes later never changes what was emitted. *)
Theorem removeDuplicate_prefix (l1 l2 : list v1.ResourceDescriptor) :
  (removeDuplicateResolvedDependencies l1).1
    `prefix_of` (removeDuplicateResolvedDependencies (l1 ++ l2)).1.
Proof.
  rewrite !removeDuplicate_emitted. simpl. rewrite emitted_app. by eexists.
Qed.

Lemma emitted_length seen (l : list v1.ResourceDescriptor) :
  (length (emitted seen l) ≤ length l)%nat
  ∧ (length (emitted seen l) = length l → emitted seen l = l).
Proof.
  revert seen. induction l as [|a l IH]; intros seen; [done|].
  cbn [emitted]. destruct (skips seen a).
  - destruct (IH seen) as [Hle _]. simpl. split; lia.
  - destruct (IH (<[identityKey a := true]> seen)) as [Hle Heq]. simpl. split; [lia|].
    intros [= Hl]. by rewrite Heq.
Qed.

(** X8. The output is never longer than the input, and has its length only
    when nothing was removed. *)
Theorem removeDuplicate_length (l : list v1.ResourceDescriptor) :
  (length (removeDuplicateResolvedDependencies l).1 ≤ length l)%nat
  ∧ (length (removeDuplicateResolvedDependencies l).1 = length l →
     (removeDuplicateResolvedDependencies l).1 = l).
Proof. rewrite removeDuplicate_emitted. apply emitted_length. Qed.

(** X9. Entries appended to an input leave the output as it is when none of
    them is named [task] or [pipeline] and each has the URI and the digest
    of an entry of the input. *)
Theorem removeDuplicate_absorbs (l l' : list v1.ResourceDescriptor) :
  Forall (λ rd, isConfigName (v1.Name rd) = false
                ∧ ∃ a, a ∈ l ∧ v1.URI a = v1.URI rd ∧ v1.Digest a = v1.Digest rd) l' →
  removeDuplicateResolvedDependencies (l ++ l') = removeDuplicateResolvedDependencies l.
Proof.
  intros Hl'. rewrite !removeDuplicate_emitted. f_equal.
  rewrite emitted_app, (emitted_all_seen (seenAfter ∅ l) l'); [by rewrite app_nil_r|].
  eapply Forall_impl; [exact Hl'|]. intros rd [Hn (a & Ha & HU & HD)]. split; [done|].
  apply isSeen_seenAfter. right. exists a. split; [done|]. by apply identityKey_fields.
Qed.

Lemma removeDuplicate_absorbs_witness :
  removeDuplicateResolvedDependencies
    ([examples.taskAX; examples.plainBY] ++ [examples.plainAX; examples.plainBY])
  = removeDuplicateResolvedDependencies [examples.taskAX; examples.plainBY].
Proof.
  apply removeDuplicate_absorbs. apply Forall_cons_2; [|apply Forall_cons_2; [|apply Forall_nil_2]].
  - split; [reflexivity|]. exists examples.taskAX. split; [by left|]. split; reflexivity.
  - split; [reflexivity|]. exists examples.plainBY.
    split; [apply elem_of_cons; right; by left|]. split; reflexivity.
Defined.

Lemma removeDuplicate_length_witness :
  (removeDuplicateResolvedDependencies [examples.plainAX; examples.plainBY]).1
  = [examples.plainAX; examples.plainBY].
Proof.
  apply (proj2 (removeDuplicate_length [examples.plainAX; examples.plainBY])).
  reflexivity.
Defined.

(** ** The converter *)

Lemma name_or_empty (name : string) :
  (if (0 <? String.length name)%nat then name else "") = name.
Proof. by destruct name. Qed.

Lemma convert_names (mats : list common.ProvenanceMaterial) (name : string) :
  Forall (λ rd, v1.Name rd = name) (convertMaterialsToResolvedDependencies mats name).
Proof.
  unfold convertMaterialsToResolvedDependencies. apply Forall_fmap, Forall_true.
  intros mat. simpl. apply name_or_empty.
Qed.

Lemma configDescriptor_names `{External} (name : string) (p : option Provenance) :
  Forall (λ rd, v1.Name rd = name) (configDescriptor name p)
  ∧ (length (configDescriptor name p) ≤ 1)%nat.
Proof.
  unfold configDescriptor. destruct p as [[[r|]]|]; simpl; split; auto.
Qed.

Lemma emitted_Forall (P : v1.ResourceDescriptor → Prop) seen (l : list v1.ResourceDescriptor) :
  Forall P l → Forall P (emitted seen l).
Proof.
  intros Hl. revert seen. induction Hl as [|a l Ha _ IH]; intros seen; [done|].
  cbn [emitted]. destruct (skips seen a); [apply IH|]. apply Forall_cons_2; [done|apply IH].
Qed.

(** ** The loop over the pipeline tasks, as a whole *)

Section stages_more.
Context `{External} `{!Material}.
Implicit Types (pro : PipelineRunObject) (t : PipelineTask) (tr : TaskRunObject).
Implicit Types (rds : list v1.ResourceDescriptor) (log : list string) (e : error).

Lemma stage_skipped pro t :
  executedTaskRun pro t = None →
  stageError pro t = None ∧ stageDescriptors pro t = []
  ∧ stageLog pro t = [notFoundMessage (pt_Name t)].
Proof. intros Hx. unfold stageError, stageDescriptors, stageLog. by rewrite Hx. Qed.

Lemma stage_executed pro t tr :
  executedTaskRun pro t = Some tr →
  stageError pro t = imagesError tr ∧ stageLog pro t = []
  ∧ stageDescriptors pro t
    = configDescriptor pipelineTaskConfigName (trs_Provenance (tro_Status tr))
        ++ convertMaterialsToResolvedDependencies
             ((FromStepImages (trs_Steps (tro_Status tr))).1
                ++ (FromSidecarImages (trs_Sidecars (tro_Status tr))).1) "".
Proof. intros Hx. unfold stageError, stageDescriptors, stageLog. by rewrite Hx. Qed.

Lemma loop_result pro ts rds log :
  fromPipelineTaskLoop pro ts rds log
  = (match firstStageError pro ts with
     | Some e => ([], Some e)
     | None => (rds ++ mjoin (stageDescriptors pro <$> ts), None)
     end,
     log ++ mjoin (stageLog pro <$> stagesBeforeError pro ts)).
Proof.
  revert rds log. induction ts as [|t ts IH]; intros rds log.
  - simpl. by rewrite !app_nil_r.
  - cbn [firstStageError stagesBeforeError].
    destruct (loop_cases pro t) as [Hs|[(tr & e & Hx & He)|(tr & Hx & He)]].
    + destruct (stage_skipped pro t Hs) as (-> & Hd & Hl).
      rewrite loop_skip, IH, !fmap_cons, Hd, Hl by done. simpl.
      by rewrite <- app_assoc.
    + destruct (stage_executed pro t tr Hx) as (-> & _ & _).
      rewrite (loop_error _ _ _ _ _ _ _ Hx He), He. simpl. by rewrite app_nil_r.
    + destruct (stage_executed pro t tr Hx) as (-> & Hl & Hd).
      rewrite (loop_ok _ _ _ _ _ _ Hx He), IH, He, !fmap_cons, Hd, Hl. simpl.
      destruct (firstStageError pro ts); [done|]. by rewrite <- !app_assoc.
Qed.

Lemma stageDescriptors_plain pro t :
  Forall (λ rd, v1.Name rd = pipelineTaskConfigName ∨ v1.Name rd = "")
    (stageDescriptors pro t).
Proof.
  unfold stageDescriptors. destruct (executedTaskRun pro t) as [tr|]; [|done].
  apply Forall_app. split.
  - eapply Forall_impl; [apply configDescriptor_names|]. by left.
  - eapply Forall_impl; [apply convert_names|]. by right.
Qed.

Lemma TaskRun_error (ctx : GoContext) (tro : TaskRunObject) :
  (TaskRun ctx tro).2 = imagesError tro
  ∧ (imagesError tro = None →
     TaskRun ctx tro
     = ((removeDuplicateResolvedDependencies (taskRunDependencies ctx tro)).1, None))
  ∧ (imagesError tro ≠ None → (TaskRun ctx tro).1 = []).
Proof.
  unfold TaskRun, imagesError, taskRunDependencies.
  destruct (FromStepImages _) as [ms [e1|]]; simpl; [done|].
  destruct (FromSidecarImages _) as [ms' [e2|]]; simpl; [done|].
  rewrite !removeDuplicate_emitted. simpl. split; [done|]. split; [|done].
  intros _. by rewrite <- !app_assoc.
Qed.

Lemma PipelineRun_result (ctx : GoContext) pro (slsaconfig : SlsaConfig) :
  PipelineRun ctx pro slsaconfig
  = (match firstStageError pro (declaredStages pro) with
     | Some e => ([], Some e)
     | None =>
         ((removeDuplicateResolvedDependencies
             (pipelineRunDependencies ctx pro slsaconfig)).1, None)
     end,
     mjoin (stageLog pro <$> stagesBeforeError pro (declaredStages pro))).
Proof.
  unfold PipelineRun, fromPipelineTask, pipelineRunDependencies, declaredStages.
  destruct (prs_PipelineSpec (pro_Status pro)) as [pSpec|].
  - rewrite loop_result. destruct (firstStageError pro _); [done|].
    rewrite !removeDuplicate_emitted. simpl. by rewrite <- !app_assoc.
  - rewrite !removeDuplicate_emitted. simpl. by rewrite app_nil_r.
Qed.

Lemma taskRunDependencies_shape (ctx : GoContext) (tro : TaskRunObject) :
  ∃ c l, taskRunDependencies ctx tro = c ++ l
         ∧ c = configDescriptor taskConfigName (trs_Provenance (tro_Status tro))
         ∧ Forall (λ rd, v1.Name rd ∈ ["" ; inputResultName; pipelineResourceName]) l.
Proof.
  eexists _, _. split; [reflexivity|]. split; [done|].
  repeat (apply Forall_app; split);
    (eapply Forall_impl; [apply convert_names|]); intros rd ->; set_solver.
Qed.

Lemma pipelineRunDependencies_shape (ctx : GoContext) pro (slsaconfig : SlsaConfig) :
  ∃ c l, pipelineRunDependencies ctx pro slsaconfig = c ++ l
         ∧ c = configDescriptor pipelineConfigName (prs_Provenance (pro_Status pro))
         ∧ Forall (λ rd, v1.Name rd ∈ [pipelineTaskConfigName; ""; inputResultName]) l.
Proof.
  eexists _, _. split; [reflexivity|]. split; [done|].
  apply Forall_app; split.
  - apply Forall_forall. intros rd (ds & Hrd & (t & -> & _)%list_elem_of_fmap)%list_elem_of_join.
    pose proof (stageDescriptors_plain pro t) as Hp. rewrite Forall_forall in Hp.
    destruct (Hp rd Hrd) as [-> | ->]; set_solver.
  - eapply Forall_impl; [apply convert_names|]. intros rd ->. set_solver.
Qed.

End stages_more.

Lemma emitted_head x (l : list v1.ResourceDescriptor) :
  emitted ∅ (x :: l) = x :: emitted (<[identityKey x := true]> ∅) l.
Proof. cbn [emitted]. unfold skips. by rewrite isSeen_empty. Qed.

(** The output for a list that bears a config name on its first entry at
    most: no two entries with one URI and digest, and the names of the
    list. *)
Lemma emitted_resolver (names : list string) (cname : string)
    (c l : list v1.ResourceDescriptor) :
  (length c ≤ 1)%nat → Forall (λ rd, v1.Name rd = cname) c →
  Forall (λ rd, v1.Name rd ∈ names) l →
  Forall (λ n, isConfigName n = false) names →
  let out := emitted ∅ (c ++ l) in
  (∀ i j a b, (i < j)%nat → out !! i = Some a → out !! j = Some b →
              ¬ (v1.URI a = v1.URI b ∧ v1.Digest a = v1.Digest b))
  ∧ (∀ rd, rd ∈ out → v1.Name rd ∈ cname :: names)
  ∧ (∀ i rd, out !! i = Some rd → isConfigName (v1.Name rd) = true → i = 0)
  ∧ (∀ x, c = [x] → out !! 0 = Some x).
Proof.
  intros Hc Hcn Hl Hnames out.
  assert (Forall (λ rd, isConfigName (v1.Name rd) = false) l) as Hplain.
  { eapply Forall_impl; [exact Hl|]. intros rd Hrd. rewrite Forall_forall in Hnames. auto. }
  split; [|split; [|split]].
  - intros i j a b. apply NoDup_keys_fields. by apply emitted_head_config.
  - apply Forall_forall, emitted_Forall, Forall_app. split.
    + eapply Forall_impl; [exact Hcn|]. intros rd ->. by left.
    + eapply Forall_impl; [exact Hl|]. intros rd Hrd. by right.
  - intros i rd Hi Hconf. destruct c as [|x [|??]]; [| |simpl in Hc; lia].
    + exfalso. apply list_elem_of_lookup_2 in Hi.
      pose proof (emitted_Forall _ ∅ _ Hplain) as Hout. rewrite Forall_forall in Hout.
      unfold out in Hi. simpl in Hi. rewrite (Hout rd Hi) in Hconf. discriminate Hconf.
    + destruct i as [|i]; [done|]. exfalso. unfold out in Hi. simpl app in Hi.
      rewrite emitted_head in Hi. simpl in Hi. apply list_elem_of_lookup_2 in Hi.
      pose proof (emitted_Forall _ (<[identityKey x := true]> ∅) _ Hplain) as Hout.
      rewrite Forall_forall in Hout. rewrite (Hout rd Hi) in Hconf. discriminate Hconf.
  - intros x ->. unfold out. simpl app. by rewrite emitted_head.
Qed.

(** ** The resolvers, as a whole *)

(** X11. [fromPipelineTask] returns the error of the first declared stage
    whose images cannot be extracted, with the nil slice; without such a
    stage, what the declared stages add, the pipeline tasks before the
    finally tasks, each in its order. *)
Theorem fromPipelineTask_result `{External} `{!Material} (pro : PipelineRunObject) :
  (fromPipelineTask pro).1
  = match firstStageError pro (declaredStages pro) with
    | Some e => ([], Some e)
    | None => (mjoin (stageDescriptors pro <$> declaredStages pro), None)
    end.
Proof.
  unfold fromPipelineTask, declaredStages.
  destruct (prs_PipelineSpec (pro_Status pro)); [|done]. by rewrite loop_result.
Qed.

(** X12. [fromPipelineTask] logs one line for each declared stage without
    an executed task run that it reaches, in the order of the stages, and
    nothing else. *)
Theorem fromPipelineTask_log `{External} `{!Material} (pro : PipelineRunObject) :
  (fromPipelineTask pro).2
  = mjoin (stageLog pro <$> stagesBeforeError pro (declaredStages pro)).
Proof.
  unfold fromPipelineTask, declaredStages.
  destruct (prs_PipelineSpec (pro_Status pro)); [|done]. by rewrite loop_result.
Qed.

(** X13. The error of [TaskRun] is that of the extraction of the step
    images or else that of the sidecar images; there is no other. *)
Theorem TaskRun_error_is_images_error `{External} `{!Material}
    (ctx : GoContext) (tro : TaskRunObject) :
  (TaskRun ctx tro).2 = imagesError tro.
Proof. apply TaskRun_error. Qed.

(** X14. When the images are extracted, [TaskRun] returns the
    deduplication of the task config, the step images, the sidecar images,
    the inputs and the resources, in this order. *)
Theorem TaskRun_success `{External} `{!Material} (ctx : GoContext) (tro : TaskRunObject) :
  imagesError tro = None →
  TaskRun ctx tro
  = ((removeDuplicateResolvedDependencies (taskRunDependencies ctx tro)).1, None).
Proof. apply TaskRun_error. Qed.

Lemma TaskRun_success_witness :
  @TaskRun examples.external examples.material
    [examples.regImg; examples.paramFoo] samples.imageAsInput
  = ([ {| v1.Name := "task"; v1.URI := "git.example/repo";
          v1.Digest := {[ "sha1" := "abc" ]} |};
       {| v1.Name := ""; v1.URI := "reg/img"; v1.Digest := examples.sha256 "d1" |};
       {| v1.Name := "inputs/result"; v1.URI := "param/foo";
          v1.Digest := examples.sha256 "d2" |} ], None).
Proof.
  rewrite (@TaskRun_success examples.external examples.material) by reflexivity.
  vm_compute. reflexivity.
Defined.

Lemma TaskRun_output `{External} `{!Material} (ctx : GoContext) (tro : TaskRunObject) :
  (TaskRun ctx tro).1 = []
  ∨ ∃ c l, (TaskRun ctx tro).1 = emitted ∅ (c ++ l)
           ∧ c = configDescriptor taskConfigName (trs_Provenance (tro_Status tro))
           ∧ Forall (λ rd, v1.Name rd ∈ ["" ; inputResultName; pipelineResourceName]) l
           ∧ imagesError tro = None.
Proof.
  destruct (TaskRun_error ctx tro) as (_ & Hok & Herr).
  destruct (imagesError tro) as [e|]; [left; by apply Herr|]. right.
  destruct (taskRunDependencies_shape ctx tro) as (c & l & Hd & Hc & Hl).
  exists c, l. rewrite (Hok eq_refl), removeDuplicate_emitted, Hd. done.
Qed.

Lemma plain_names :
  Forall (λ n, isConfigName n = false)
    ["" ; inputResultName; pipelineResourceName; pipelineTaskConfigName].
Proof. repeat apply Forall_cons_2; [reflexivity..|apply Forall_nil_2]. Qed.

(** X15. The result of [TaskRun] never holds two descriptors with the same
    URI and the same digest. *)
Theorem TaskRun_distinct `{External} `{!Material} (ctx : GoContext) (tro : TaskRunObject)
    (i j : nat) (a b : v1.ResourceDescriptor) :
  (i < j)%nat → (TaskRun ctx tro).1 !! i = Some a → (TaskRun ctx tro).1 !! j = Some b →
  ¬ (v1.URI a = v1.URI b ∧ v1.Digest a = v1.Digest b).
Proof.
  destruct (TaskRun_output ctx tro) as [->|(c & l & -> & Hc & Hl & _)]; [by rewrite lookup_nil|].
  subst c. eapply emitted_resolver; [apply configDescriptor_names..|exact Hl|].
  pose proof plain_names as Hp. rewrite !Forall_cons in Hp.
  repeat apply Forall_cons_2; [apply Hp..|apply Forall_nil_2].
Qed.

Lemma TaskRun_distinct_witness :
  ¬ (v1.URI {| v1.Name := ""; v1.URI := "reg/img"; v1.Digest := examples.sha256 "d1" |}
     = v1.URI {| v1.Name := "inputs/result"; v1.URI := "param/foo";
                 v1.Digest := examples.sha256 "d2" |}
     ∧ v1.Digest {| v1.Name := ""; v1.URI := "reg/img"; v1.Digest := examples.sha256 "d1" |}
       = v1.Digest {| v1.Name := "inputs/result"; v1.URI := "param/foo";
                      v1.Digest := examples.sha256 "d2" |}).
Proof.
  apply (@TaskRun_distinct examples.external examples.material
           [examples.regImg; examples.paramFoo] samples.imageAsInput 1 2);
    [lia|vm_compute; reflexivity..].
Defined.

(** X16. [TaskRun] names its descriptors [task], [inputs/result] or
    [pipelineResource], or leaves them unnamed. *)
Theorem TaskRun_names `{External} `{!Material} (ctx : GoContext) (tro : TaskRunObject)
    (rd : v1.ResourceDescriptor) :
  rd ∈ (TaskRun ctx tro).1 → v1.Name rd ∈ taskRunNames.
Proof.
  destruct (TaskRun_output ctx tro) as [->|(c & l & -> & Hc & Hl & _)].
  { intros Hrd. by apply elem_of_nil in Hrd. }
  subst c. eapply emitted_resolver; [apply configDescriptor_names..|exact Hl|].
  pose proof plain_names as Hp. rewrite !Forall_cons in Hp.
  repeat apply Forall_cons_2; [apply Hp..|apply Forall_nil_2].
Qed.

Lemma TaskRun_names_witness :
  v1.Name {| v1.Name := "inputs/result"; v1.URI := "param/foo";
             v1.Digest := examples.sha256 "d2" |} ∈ taskRunNames.
Proof.
  apply (@TaskRun_names examples.external examples.material
           [examples.regImg; examples.paramFoo] samples.imageAsInput).
  apply list_elem_of_lookup. exists 2. vm_compute. reflexivity.
Defined.

(** X17. When the status records where the task came from and the images
    are extracted, the descriptor named [task] of that reference is the
    first of the result of [TaskRun], and no other descriptor of the
    result is named [task] or [pipeline]. *)
Theorem TaskRun_task_first `{External} `{!Material} (ctx : GoContext) (tro : TaskRunObject)
    (p : Provenance) (r : RefSource) :
  trs_Provenance (tro_Status tro) = Some p → prov_RefSource p = Some r →
  imagesError tro = None →
  (TaskRun ctx tro).1 !! 0
  = Some {| v1.Name := taskConfigName; v1.URI := ref_URI r; v1.Digest := ref_Digest r |}
  ∧ ∀ i rd, (TaskRun ctx tro).1 !! i = Some rd →
            isConfigName (v1.Name rd) = true → i = 0.
Proof.
  intros Hp Hr Hok. destruct (TaskRun_error ctx tro) as (_ & Hs & _).
  rewrite (Hs Hok), removeDuplicate_emitted. cbn [fst].
  destruct (taskRunDependencies_shape ctx tro) as (c & l & -> & Hc & Hl).
  assert (Forall (λ n, isConfigName n = false) ["" ; inputResultName; pipelineResourceName])
    as Hplain.
  { pose proof plain_names as Hn. rewrite !Forall_cons in Hn.
    repeat apply Forall_cons_2; [apply Hn..|apply Forall_nil_2]. }
  destruct (emitted_resolver ["" ; inputResultName; pipelineResourceName]
              taskConfigName c l) as (_ & _ & Hfirst & Hhead);
    [subst c; apply configDescriptor_names..|exact Hl|exact Hplain|].
  split; [|exact Hfirst]. apply Hhead. subst c. unfold configDescriptor. by rewrite Hp, Hr.
Qed.

Lemma TaskRun_task_first_witness :
  (@TaskRun examples.external examples.material
     [examples.regImg; examples.paramFoo] samples.imageAsInput).1 !! 0
  = Some {| v1.Name := taskConfigName; v1.URI := "git.example/repo";
            v1.Digest := {[ "sha1" := "abc" ]} |}.
Proof.
  apply (@TaskRun_task_first examples.external examples.material
           [examples.regImg; examples.paramFoo] samples.imageAsInput
           {| prov_RefSource := Some examples.gitRepo |} examples.gitRepo);
    reflexivity.
Defined.

(** X18. The error of [PipelineRun] is that of the first declared stage
    whose images cannot be extracted; there is no other. *)
Theorem PipelineRun_error_is_first_stage_error `{External} `{!Material}
    (ctx : GoContext) (pro : PipelineRunObject) (slsaconfig : SlsaConfig) :
  (PipelineRun ctx pro slsaconfig).1.2 = firstStageError pro (declaredStages pro).
Proof.
  rewrite PipelineRun_result. simpl.
  by destruct (firstStageError pro (declaredStages pro)).
Qed.

(** X19. When the images of all declared stages are extracted,
    [PipelineRun] returns the deduplication of the pipeline config, what
    the stages add, in their order, and the inputs of the pipeline run. *)
Theorem PipelineRun_success `{External} `{!Material}
    (ctx : GoContext) (pro : PipelineRunObject) (slsaconfig : SlsaConfig) :
  firstStageError pro (declaredStages pro) = None →
  (PipelineRun ctx pro slsaconfig).1
  = ((removeDuplicateResolvedDependencies
        (pipelineRunDependencies ctx pro slsaconfig)).1, None).
Proof. intros Hok. by rewrite PipelineRun_result, Hok. Qed.

Lemma PipelineRun_success_witness :
  (@PipelineRun examples.external examples.material [examples.paramFoo]
     (samples.pipelineABA [Some examples.regImg]) tt).1
  = ([ {| v1.Name := "pipeline"; v1.URI := "git.example/repo";
          v1.Digest := {[ "sha1" := "abc" ]} |};
       {| v1.Name := ""; v1.URI := "reg/img"; v1.Digest := examples.sha256 "d1" |};
       {| v1.Name := "inputs/result"; v1.URI := "param/foo";
          v1.Digest := examples.sha256 "d2" |} ], None).
Proof.
  rewrite (@PipelineRun_success examples.external examples.material) by reflexivity.
  vm_compute. reflexivity.
Defined.

Lemma PipelineRun_output `{External} `{!Material}
    (ctx : GoContext) (pro : PipelineRunObject) (slsaconfig : SlsaConfig) :
  (PipelineRun ctx pro slsaconfig).1.1 = []
  ∨ ∃ c l, (PipelineRun ctx pro slsaconfig).1.1 = emitted ∅ (c ++ l)
           ∧ c = configDescriptor pipelineConfigName (prs_Provenance (pro_Status pro))
           ∧ Forall (λ rd, v1.Name rd ∈ [pipelineTaskConfigName; ""; inputResultName]) l
           ∧ firstStageError pro (declaredStages pro) = None.
Proof.
  rewrite PipelineRun_result. cbn [fst].
  destruct (firstStageError pro (declaredStages pro)) as [e|]; [by left|]. right.
  destruct (pipelineRunDependencies_shape ctx pro slsaconfig) as (c & l & Hd & Hc & Hl).
  exists c, l. rewrite removeDuplicate_emitted, Hd. done.
Qed.

Lemma pipeline_plain_names :
  Forall (λ n, isConfigName n = false) [pipelineTaskConfigName; ""; inputResultName].
Proof.
  pose proof plain_names as Hn. rewrite !Forall_cons in Hn.
  repeat apply Forall_cons_2; [apply Hn..|apply Forall_nil_2].
Qed.

(** X20. The result of [PipelineRun] never holds two descriptors with the
    same URI and the same digest: a remote task or an image that several
    stages share, or that the pipeline config or an input repeats, is
    listed once. *)
Theorem PipelineRun_distinct `{External} `{!Material}
    (ctx : GoContext) (pro : PipelineRunObject) (slsaconfig : SlsaConfig)
    (i j : nat) (a b : v1.ResourceDescriptor) :
  (i < j)%nat →
  (PipelineRun ctx pro slsaconfig).1.1 !! i = Some a →
  (PipelineRun ctx pro slsaconfig).1.1 !! j = Some b →
  ¬ (v1.URI a = v1.URI b ∧ v1.Digest a = v1.Digest b).
Proof.
  destruct (PipelineRun_output ctx pro slsaconfig) as [->|(c & l & -> & Hc & Hl & _)];
    [by rewrite lookup_nil|].
  subst c. eapply emitted_resolver;
    [apply configDescriptor_names..|exact Hl|apply pipeline_plain_names].
Qed.

Lemma PipelineRun_distinct_witness :
  ¬ (v1.URI {| v1.Name := "pipeline"; v1.URI := "git.example/repo";
               v1.Digest := {[ "sha1" := "abc" ]} |}
     = v1.URI {| v1.Name := ""; v1.URI := "reg/img"; v1.Digest := examples.sha256 "d1" |}
     ∧ v1.Digest {| v1.Name := "pipeline"; v1.URI := "git.example/repo";
                    v1.Digest := {[ "sha1" := "abc" ]} |}
       = v1.Digest {| v1.Name := ""; v1.URI := "reg/img";
                      v1.Digest := examples.sha256 "d1" |}).
Proof.
  apply (@PipelineRun_distinct examples.external examples.material
           [examples.paramFoo] (samples.pipelineABA [Some examples.regImg]) tt 0 1);
    [lia|vm_compute; reflexivity..].
Defined.

(** X21. [PipelineRun] names its descriptors [pipeline], [pipelineTask] or
    [inputs/result], or leaves them unnamed; a descriptor named [pipeline]
    can only be the first of the result, and is the first when the status
    records where the pipeline came from and the images of all declared
    stages are extracted. *)
Theorem PipelineRun_names `{External} `{!Material}
    (ctx : GoContext) (pro : PipelineRunObject) (slsaconfig : SlsaConfig) :
  (∀ rd, rd ∈ (PipelineRun ctx pro slsaconfig).1.1 → v1.Name rd ∈ pipelineRunNames)
  ∧ (∀ i rd, (PipelineRun ctx pro slsaconfig).1.1 !! i = Some rd →
             isConfigName (v1.Name rd) = true → i = 0)
  ∧ (∀ p r, prs_Provenance (pro_Status pro) = Some p → prov_RefSource p = Some r →
            firstStageError pro (declaredStages pro) = None →
            (PipelineRun ctx pro slsaconfig).1.1 !! 0
            = Some {| v1.Name := pipelineConfigName; v1.URI := ref_URI r;
                      v1.Digest := ref_Digest r |}).
Proof.
  destruct (PipelineRun_output ctx pro slsaconfig) as [Hnil|(c & l & Hout & Hc & Hl & Hok)].
  - rewrite Hnil. split; [|split].
    + intros rd Hrd. by apply elem_of_nil in Hrd.
    + intros i rd. by rewrite lookup_nil.
    + intros p r Hp Hr Hok'. exfalso. revert Hnil.
      rewrite PipelineRun_result, Hok', removeDuplicate_emitted. cbn [fst].
      unfold pipelineRunDependencies, configDescriptor. rewrite Hp, Hr.
      cbn [app]. by rewrite emitted_head.
  - rewrite Hout.
    destruct (emitted_resolver [pipelineTaskConfigName; ""; inputResultName]
                pipelineConfigName c l) as (_ & Hnames & Hfirst & Hhead);
      [subst c; apply configDescriptor_names..|exact Hl|apply pipeline_plain_names|].
    split; [exact Hnames|]. split; [exact Hfirst|].
    intros p r Hp Hr _. apply Hhead. subst c. unfold configDescriptor. by rewrite Hp, Hr.
Qed.

Lemma PipelineRun_names_witness :
  (@PipelineRun examples.external examples.material [examples.paramFoo]
     (samples.pipelineABA [Some examples.regImg]) tt).1.1 !! 0
  = Some {| v1.Name := pipelineConfigName; v1.URI := "git.example/repo";
            v1.Digest := {[ "sha1" := "abc" ]} |}.
Proof.
  apply (proj2 (proj2 (@PipelineRun_names examples.external examples.material
           [examples.paramFoo] (samples.pipelineABA [Some examples.regImg]) tt))
           {| prov_RefSource := Some examples.gitRepo |} examples.gitRepo);
    reflexivity.
Defined.

Lemma convert_elem (mats : list common.ProvenanceMaterial) (name : string)
    (mat : common.ProvenanceMaterial) :
  mat ∈ mats →
  ∃ x, x ∈ convertMaterialsToResolvedDependencies mats name
       ∧ v1.URI x = common.URI mat ∧ v1.Digest x = common.Digest mat.
Proof.
  intros Hm. eexists. split.
  - apply list_elem_of_fmap. eexists. split; [reflexivity|done].
  - split; reflexivity.
Qed.

Lemma emitted_elem seen (l : list v1.ResourceDescriptor) y : y ∈ emitted seen l → y ∈ l.
Proof.
  intros Hy. pose proof (emitted_Forall (λ y, y ∈ l) seen l) as Hf.
  rewrite !Forall_forall in Hf. by apply Hf.
Qed.

(** X22. When the images are extracted, no material is lost by [TaskRun]:
    every step image, sidecar image, input and resource has its identity
    key on a descriptor of the result and, the strings being valid UTF-8,
    its URI and its digest. *)
Theorem TaskRun_complete `{External} `{!Material} (ctx : GoContext) (tro : TaskRunObject)
    (mat : common.ProvenanceMaterial) :
  imagesError tro = None →
  mat ∈ (FromStepImages (trs_Steps (tro_Status tro))).1
          ++ (FromSidecarImages (trs_Sidecars (tro_Status tro))).1
          ++ FromTaskParamsAndResults ctx tro ++ FromTaskResources ctx tro →
  let key := identityKey {| v1.Name := ""; v1.URI := common.URI mat;
                            v1.Digest := common.Digest mat |} in
  (∃ rd, rd ∈ (TaskRun ctx tro).1 ∧ identityKey rd = key)
  ∧ (Forall validDescriptor (taskRunDependencies ctx tro) →
     ∃ rd, rd ∈ (TaskRun ctx tro).1
           ∧ v1.URI rd = common.URI mat ∧ v1.Digest rd = common.Digest mat).
Proof.
  intros Hok Hmat key. rewrite (proj1 (proj2 (TaskRun_error ctx tro)) Hok). cbn [fst].
  assert (∃ x, x ∈ taskRunDependencies ctx tro
               ∧ v1.URI x = common.URI mat ∧ v1.Digest x = common.Digest mat)
    as (x & Hx & HU & HD).
  { unfold taskRunDependencies. rewrite !elem_of_app in Hmat.
    destruct Hmat as [Hm|[Hm|[Hm|Hm]]].
    - destruct (convert_elem ((FromStepImages (trs_Steps (tro_Status tro))).1
                                ++ (FromSidecarImages (trs_Sidecars (tro_Status tro))).1)
                  "" mat) as (x & Hx & Hf); [apply elem_of_app; by left|].
      exists x. split; [|done]. rewrite !elem_of_app. auto.
    - destruct (convert_elem ((FromStepImages (trs_Steps (tro_Status tro))).1
                                ++ (FromSidecarImages (trs_Sidecars (tro_Status tro))).1)
                  "" mat) as (x & Hx & Hf); [apply elem_of_app; by right|].
      exists x. split; [|done]. rewrite !elem_of_app. auto.
    - destruct (convert_elem _ inputResultName mat Hm) as (x & Hx & Hf).
      exists x. split; [|done]. rewrite !elem_of_app. auto.
    - destruct (convert_elem _ pipelineResourceName mat Hm) as (x & Hx & Hf).
      exists x. split; [|done]. rewrite !elem_of_app. auto. }
  destruct (removeDuplicate_keeps_every_key_aux _ x Hx) as (y & Hy & Hk).
  split.
  - exists y. split; [done|]. rewrite Hk. by apply identityKey_fields.
  - intros Hvalid. exists y. split; [done|]. rewrite <- HU, <- HD.
    rewrite Forall_forall in Hvalid. apply identityKey_inj; [apply Hvalid..|done]; [|done].
    rewrite removeDuplicate_emitted in Hy. by apply emitted_elem in Hy.
Qed.

Lemma TaskRun_complete_witness :
  ∃ rd, rd ∈ (@TaskRun examples.external examples.material
                [examples.regImg; examples.paramFoo] samples.imageAsInput).1
        ∧ identityKey rd
          = identityKey {| v1.Name := ""; v1.URI := common.URI examples.regImg;
                           v1.Digest := common.Digest examples.regImg |}.
Proof.
  apply (@TaskRun_complete examples.external examples.material
           [examples.regImg; examples.paramFoo] samples.imageAsInput examples.regImg);
    [reflexivity|].
  apply elem_of_app. left. apply elem_of_cons. by left.
Defined.
